(** * splat: the split driver ([split.py])

    A shallow embedding of the driver of the ROM splitter: the byte-count
    formatter, the merge of configuration documents, the construction of
    the segment list from its descriptors, the per-segment symbol
    partition and the scan / split pipeline with its incremental cache.

    Python values are modelled as follows.  Integers are [Z]; strings are
    [string]; the documents produced by the YAML loader are the trees of
    [yaml], whose mappings are association lists in insertion order, as a
    Python [dict] keeps them; the dictionaries keyed by address, by type
    and by segment id are [gmap]s.  An exception or a call of [log.error]
    ends the computation with [Raise]. *)

From Stdlib Require Import ZArith List Ascii String.
From stdpp Require Import base decidable option list strings pretty gmap fin_maps.

#[local] Open Scope string_scope.
#[local] Open Scope list_scope.
#[local] Open Scope Z_scope.

(** ** Python values and exceptions *)

Set Warnings "-register-all".

(** The values a YAML document is made of.  Floats do not occur in the
    documents considered here. *)
Inductive yaml : Type :=
  | YNull
  | YBool (b : bool)
  | YInt (n : Z)
  | YStr (s : string)
  | YList (l : list yaml)
  | YDict (d : list (string * yaml)).

Definition dict : Type := list (string * yaml).

(** The result of [type(v)]. *)
Inductive py_type : Type := TNone | TBool | TInt | TStr | TList | TDict.

#[global] Instance py_type_eq_dec : EqDecision py_type.
Proof. solve_decision. Defined.

Definition type_of (v : yaml) : py_type :=
  match v with
  | YNull => TNone
  | YBool _ => TBool
  | YInt _ => TInt
  | YStr _ => TStr
  | YList _ => TList
  | YDict _ => TDict
  end.

(** The ways a run ends early.  [SystemExit msg] is what [log.error msg]
    does; the others are the Python exceptions of the same names. *)
Inductive py_error : Type :=
  | SystemExit (msg : string)
  | IndexError
  | KeyError (k : string)
  | NameError (v : string)
  | TypeError
  | AttributeError
  | FileNotFoundError
  | PermissionError
  | UnpicklingError.

Inductive result (A : Type) : Type :=
  | Ok (a : A)
  | Raise (e : py_error).
Arguments Ok {A} a.
Arguments Raise {A} e.

Definition rbind {A B : Type} (r : result A) (k : A -> result B) : result B :=
  match r with
  | Ok a => k a
  | Raise e => Raise e
  end.

Notation "'let?' x := r 'in' k" := (rbind r (fun x => k))
  (at level 10, x pattern, r at level 100, k at level 200).

(** Modelled from the spec: [log.error] of [util/log.py] reports its
    message and aborts the run (a collision "fails the whole run", a type
    clash in a merge is "a fatal merge error"). *)
Definition log_error {A : Type} (msg : string) : result A := Raise (SystemExit msg).

(** [str(n)] on an integer. *)
Definition str (n : Z) : string := pretty n.

(** ** [fmt_size] *)

Definition fmt_size (size : Z) : string :=
  if size >? 1000000 then str (size `div` 1000000) +:+ " MB"
  else if size >? 1000 then str (size `div` 1000) +:+ " KB"
  else str size +:+ " B".

(** ** Dictionaries of a configuration document *)

(** [d.get(k)], [None] when the key is absent. *)
Fixpoint dict_get (k : string) (d : dict) : option yaml :=
  match d with
  | [] => None
  | (k', v) :: d' => if decide (k = k') then Some v else dict_get k d'
  end.

(** [d[k] = v]: an existing key keeps its place, a new one goes last. *)
Fixpoint dict_set (k : string) (v : yaml) (d : dict) : dict :=
  match d with
  | [] => [(k, v)]
  | (k', v') :: d' =>
      if decide (k = k') then (k', v) :: d' else (k', v') :: dict_set k v d'
  end.

(** ** [merge_configs] *)

Definition merge_type_error (curkey : string) : string :=
  "Type for key " +:+ curkey +:+ " in configs does not match".

(** [merge_configs], with [additional_config] taken as a value: the loop
    over its keys, the mapping under construction being [main_config].
    The recursive call on a sub-mapping is on a value stored in
    [additional_config], which makes the recursion structural.  Documents
    are values here: a list or a mapping is not shared between two keys. *)
Fixpoint merge_into (main_config : dict) (additional_config : yaml) {struct additional_config}
  : result dict :=
  match additional_config with
  | YDict additional =>
      (fix loop (main_config : dict) (todo : list (string * yaml)) {struct todo} : result dict :=
         match todo with
         | [] => Ok main_config
         | (curkey, new) :: todo' =>
             match dict_get curkey main_config with
             | None => loop (dict_set curkey new main_config) todo'
             | Some old =>
                 if decide (type_of old <> type_of new) then
                   log_error (merge_type_error curkey)
                 else
                   match old with
                   | YList l =>
                       match new with
                       | YList l' => loop (dict_set curkey (YList (l ++ l')) main_config) todo'
                       | _ => Raise TypeError
                       end
                   | YDict sub =>
                       match merge_into sub new with
                       | Ok merged => loop (dict_set curkey (YDict merged) main_config) todo'
                       | Raise e => Raise e
                       end
                   | _ => loop (dict_set curkey new main_config) todo'
                   end
             end
         end) main_config additional
  | _ => Raise TypeError
  end.

Definition merge_configs (main_config additional_config : dict) : result dict :=
  merge_into main_config (YDict additional_config).

(** ** Symbols and segments *)

(** A symbol of the table [symbols.all_symbols]; [rom] is [None] when the
    symbol carries no ROM address. *)
Record Symbol : Type := mkSymbol {
  sym_name : string;
  vram_start : Z;
  rom : option Z;
}.

(** A mapping from address to the symbols at that address. *)
Abbreviation symbol_map := (gmap Z (list Symbol)).

(** A segment.  The range is resolved by [initialize_segments]; [rom_end]
    is [None] when unresolved.  [unique_id], [cache], [should_scan],
    [should_split] and [is_name_default] stand for the results of the
    methods of the same names, which the concrete segment type owns and
    which do not change during a run. *)
Record Segment : Type := mkSegment {
  name : string;
  type : string;
  rom_start : Z;
  rom_end : option Z;
  seg_vram_start : option Z;
  seg_vram_end : option Z;
  require_unique_name : bool;
  needs_symbols : bool;
  unique_id : string;
  cache : yaml;
  should_scan : bool;
  should_split : bool;
  is_name_default : bool;
  given_seg_symbols : symbol_map;
  given_ext_symbols : symbol_map;
  did_run : bool;
}.

(** Modelled from the spec: [Segment.size] of [segtypes/segment.py], "end
    - start, or undefined (null) if end is unresolved". *)
Definition size (segment : Segment) : option Z :=
  match rom_end segment with
  | Some e => Some (e - rom_start segment)
  | None => None
  end.

(** Modelled from the spec: [Segment.contains_vram] of
    [segtypes/segment.py]; containment is half-open, and the vram fields
    are present only for segments mapped into the address space. *)
Definition contains_vram (segment : Segment) (vram : Z) : bool :=
  match seg_vram_start segment, seg_vram_end segment with
  | Some s, Some e => bool_decide (s <= vram < e)
  | _, _ => false
  end.

(** Modelled from the spec: [Segment.contains_rom] of
    [segtypes/segment.py]; half-open, without upper bound when the end is
    unresolved. *)
Definition contains_rom (segment : Segment) (rom : Z) : bool :=
  match rom_end segment with
  | Some e => bool_decide (rom_start segment <= rom < e)
  | None => bool_decide (rom_start segment <= rom)
  end.

(** Modelled from the spec: [symbols.is_symbol_isolated] of
    [util/symbols.py], "exactly one segment in the entire tree contains
    that vram address". *)
Definition is_symbol_isolated (symbol : Symbol) (all_segments : list Segment) : bool :=
  bool_decide
    (length (filter (fun segment => contains_vram segment (vram_start symbol) = true)
               all_segments) = 1%nat).

(** Truth value of [symbol.rom]: [None] and [0] are false. *)
Definition rom_truthy (rom : option Z) : bool :=
  match rom with
  | Some a => negb (a =? 0)
  | None => false
  end.

(** [symbol.rom and segment.contains_rom(symbol.rom)] *)
Definition rom_and_contains (segment : Segment) (rom : option Z) : bool :=
  match rom with
  | Some a => if a =? 0 then false else contains_rom segment a
  | None => false
  end.

(** ** [get_segment_symbols] *)

(** [if k not in m: m[k] = []] followed by [m[k].append(symbol)], with
    [k = symbol.vram_start]. *)
Definition append_symbol (m : symbol_map) (symbol : Symbol) : symbol_map :=
  let m' := match m !! vram_start symbol with
            | None => <[vram_start symbol := []]> m
            | Some _ => m
            end in
  alter (fun l => l ++ [symbol]) (vram_start symbol) m'.

(** One pass of the loop over [symbols.all_symbols]. *)
Definition place_symbol (segment : Segment) (all_segments : list Segment)
    (acc : symbol_map * symbol_map) (symbol : Symbol) : symbol_map * symbol_map :=
  let '(seg_syms, other_syms) := acc in
  if is_symbol_isolated symbol all_segments && negb (rom_truthy (rom symbol)) then
    if contains_vram segment (vram_start symbol) then
      (append_symbol seg_syms symbol, other_syms)
    else
      (seg_syms, append_symbol other_syms symbol)
  else
    if rom_and_contains segment (rom symbol) then
      (append_symbol seg_syms symbol, other_syms)
    else
      (seg_syms, append_symbol other_syms symbol).

Definition get_segment_symbols (all_symbols : list Symbol)
    (segment : Segment) (all_segments : list Segment) : symbol_map * symbol_map :=
  fold_left (place_symbol segment all_segments) all_symbols (∅, ∅).

(** ** [initialize_segments] *)

(** The static methods of [Segment] (file [segtypes/segment.py]) that
    [initialize_segments] calls.  They read a descriptor; each may fail. *)
Class SegmentModule : Type := {
  segment_class : Type;
  parse_segment_type : yaml -> result string;
  get_class_for_type : string -> result segment_class;
  parse_segment_start : yaml -> result Z;
  from_yaml : segment_class -> yaml -> Z -> Z -> result Segment;
}.

(** Modelled from the spec: what the absent methods are required to do.
    The segment built from a descriptor has the range it was given
    ("resolve range.rom_start from the descriptor", the end from the
    entry that follows), and a boundary marker carries only its address. *)
Class SegmentModuleSpec (SM : SegmentModule) : Prop := {
  from_yaml_range : forall cls seg_yaml this_start next_start segment,
    from_yaml cls seg_yaml this_start next_start = Ok segment ->
    rom_start segment = this_start /\ rom_end segment = Some next_start;
  parse_marker_start : forall a, parse_segment_start (YList [YInt a]) = Ok a;
}.

(** [isinstance(seg_yaml, list) and len(seg_yaml) == 1] *)
Definition is_rompos_marker (seg_yaml : yaml) : bool :=
  match seg_yaml with
  | YList [_] => true
  | _ => false
  end.

(** [l[i]] for a non-negative index. *)
Definition py_index {A : Type} (l : list A) (i : nat) : result A :=
  match l !! i with
  | Some x => Ok x
  | None => Raise IndexError
  end.

Definition not_unique_error (nm : string) : string :=
  "segment name '" +:+ nm +:+ "' is not unique".

Section initialize_segments.
Context {SM : SegmentModule}.

(** The body of the loop for a descriptor that is not a marker; the
    state is [seen_segment_names] and [ret]. *)
Definition initialize_segment (config_segments : list yaml) (i : nat) (seg_yaml : yaml)
    (seen_segment_names : gset string) (ret : list Segment)
  : result (gset string * list Segment) :=
  let? seg_type := parse_segment_type seg_yaml in
  let? segment_class := get_class_for_type seg_type in
  let? this_start := parse_segment_start seg_yaml in
  let? next_yaml := py_index config_segments (i + 1) in
  let? next_start := parse_segment_start next_yaml in
  let? segment := from_yaml segment_class seg_yaml this_start next_start in
  let? seen_segment_names :=
    if require_unique_name segment then
      if decide (name segment ∈ seen_segment_names)
      then log_error (not_unique_error (name segment))
      else Ok ({[name segment]} ∪ seen_segment_names)
    else Ok seen_segment_names in
  Ok (seen_segment_names, ret ++ [segment]).

(** [for i, seg_yaml in enumerate(config_segments)], from index [i] on;
    [todo] is what remains to be enumerated.  The result is the state
    of the loop at its end. *)
Fixpoint initialize_loop (config_segments : list yaml) (i : nat) (todo : list yaml)
    (seen_segment_names : gset string) (ret : list Segment)
  : result (gset string * list Segment) :=
  match todo with
  | [] => Ok (seen_segment_names, ret)
  | seg_yaml :: todo' =>
      if is_rompos_marker seg_yaml then
        initialize_loop config_segments (S i) todo' seen_segment_names ret
      else
        match initialize_segment config_segments i seg_yaml seen_segment_names ret with
        | Ok (seen_segment_names, ret) =>
            initialize_loop config_segments (S i) todo' seen_segment_names ret
        | Raise e => Raise e
        end
  end.

Definition initialize_segments (config_segments : list yaml) : result (list Segment) :=
  let? st := initialize_loop config_segments 0 config_segments ∅ [] in
  Ok st.2.
End initialize_segments.

(** ** Python equality *)

(** [a == b] on the values of [yaml]: [True == 1], lists compare element
    by element, mappings (with distinct keys) compare key by key,
    whatever the order of the keys. *)
Fixpoint py_eq (a b : yaml) {struct a} : bool :=
  match a, b with
  | YNull, YNull => true
  | YBool x, YBool y => bool_decide (x = y)
  | YBool x, YInt n => bool_decide (n = if x then 1 else 0)
  | YInt n, YBool x => bool_decide (n = if x then 1 else 0)
  | YInt n, YInt m => bool_decide (n = m)
  | YStr s, YStr t => bool_decide (s = t)
  | YList l, YList l' =>
      (fix all2 (l l' : list yaml) {struct l} : bool :=
         match l, l' with
         | [], [] => true
         | x :: l, y :: l' => py_eq x y && all2 l l'
         | _, _ => false
         end) l l'
  | YDict d, YDict d' =>
      bool_decide (length d = length d') &&
      (fix all (d : list (string * yaml)) {struct d} : bool :=
         match d with
         | [] => true
         | (k, v) :: d =>
             match dict_get k d' with
             | Some v' => py_eq v v'
             | None => false
             end && all d
         end) d
  | _, _ => false
  end.

(** ** The run: [main] *)

(** The effects of a run that reach the file system or a segment. *)
Inductive event : Type :=
  | Mkdir
  | Scan (id : string)
  | Split (id : string)
  | Dump (store : gmap string yaml).

(** The local variables of [main] the two passes work on, and the effects
    so far.  [cache_store] is the variable [cache]; [typ] is [None] until
    the scan loop binds it. *)
Record Locals : Type := mkLocals {
  processed_segments : list Segment;
  seg_sizes : gmap string Z;
  seg_split : gmap string Z;
  seg_cached : gmap string Z;
  cache_store : gmap string yaml;
  typ : option string;
  trace : list event;
}.

Definition initial_locals : Locals :=
  {| processed_segments := []; seg_sizes := ∅; seg_split := ∅; seg_cached := ∅;
     cache_store := ∅; typ := None; trace := [] |}.

Definition set_processed_segments (v : list Segment) (st : Locals) : Locals :=
  {| processed_segments := v; seg_sizes := seg_sizes st; seg_split := seg_split st;
     seg_cached := seg_cached st; cache_store := cache_store st; typ := typ st;
     trace := trace st |}.
Definition set_seg_sizes (v : gmap string Z) (st : Locals) : Locals :=
  {| processed_segments := processed_segments st; seg_sizes := v; seg_split := seg_split st;
     seg_cached := seg_cached st; cache_store := cache_store st; typ := typ st;
     trace := trace st |}.
Definition set_seg_split (v : gmap string Z) (st : Locals) : Locals :=
  {| processed_segments := processed_segments st; seg_sizes := seg_sizes st; seg_split := v;
     seg_cached := seg_cached st; cache_store := cache_store st; typ := typ st;
     trace := trace st |}.
Definition set_seg_cached (v : gmap string Z) (st : Locals) : Locals :=
  {| processed_segments := processed_segments st; seg_sizes := seg_sizes st;
     seg_split := seg_split st; seg_cached := v; cache_store := cache_store st;
     typ := typ st; trace := trace st |}.
Definition set_cache_store (v : gmap string yaml) (st : Locals) : Locals :=
  {| processed_segments := processed_segments st; seg_sizes := seg_sizes st;
     seg_split := seg_split st; seg_cached := seg_cached st; cache_store := v;
     typ := typ st; trace := trace st |}.
Definition set_typ (v : option string) (st : Locals) : Locals :=
  {| processed_segments := processed_segments st; seg_sizes := seg_sizes st;
     seg_split := seg_split st; seg_cached := seg_cached st;
     cache_store := cache_store st; typ := v; trace := trace st |}.
Definition add_event (e : event) (st : Locals) : Locals :=
  {| processed_segments := processed_segments st; seg_sizes := seg_sizes st;
     seg_split := seg_split st; seg_cached := seg_cached st;
     cache_store := cache_store st; typ := typ st; trace := trace st ++ [e] |}.

(** A computation over the locals that may abort; the locals and the
    effects at the time of the abort are kept. *)
Definition M (A : Type) : Type := Locals -> result A * Locals.

Definition pure {A : Type} (a : A) : M A := fun st => (Ok a, st).
Definition bind {A B : Type} (m : M A) (k : A -> M B) : M B :=
  fun st => match m st with
            | (Ok a, st') => k a st'
            | (Raise e, st') => (Raise e, st')
            end.
Definition lift {A : Type} (r : result A) : M A := fun st => (r, st).
Definition gets {A : Type} (f : Locals -> A) : M A := fun st => (Ok (f st), st).
Definition modify (f : Locals -> Locals) : M unit := fun st => (Ok tt, f st).

Notation "'do' x <- m ; k" := (bind m (fun x => k))
  (at level 10, x name, m at level 100, k at level 200,
   format "'[v' 'do'  x  <-  m ; '/' k ']'").
Notation "'run' m ; k" := (bind m (fun _ => k))
  (at level 10, m at level 100, k at level 200,
   format "'[v' 'run'  m ; '/' k ']'").

(** [for x in l: body(x)], collecting what each pass leaves of [x]. *)
Fixpoint for_each {A B : Type} (body : A -> M B) (l : list A) : M (list B) :=
  match l with
  | [] => pure []
  | x :: l' =>
      do y <- body x;
      do ys <- for_each body l';
      pure (y :: ys)
  end.

(** [d.get(k)] on the cache and on the counters. *)
Definition cache_get (k : string) (c : gmap string yaml) : yaml := default YNull (c !! k).

(** [d[k] += n] *)
Definition bump (k : string) (n : Z) (d : gmap string Z) : result (gmap string Z) :=
  match d !! k with
  | Some v => Ok (<[k := v + n]> d)
  | None => Raise (KeyError k)
  end.

(** [config.get("options")] *)
Definition config_options (config : dict) : yaml := default YNull (dict_get "options" config).

(** *** Loading the configuration and the checksum gate *)

(** The loop over [config_path]: every document is merged into what the
    earlier ones gave, starting from the empty mapping. *)
Fixpoint load_config (config : dict) (documents : list dict) : result dict :=
  match documents with
  | [] => Ok config
  | additional_config :: documents' =>
      let? config := merge_configs config additional_config in
      load_config config documents'
  end.

(** [s.lower()], on ASCII letters; the other bytes of a string are kept,
    and none of them is turned into a hexadecimal digit by Python. *)
Definition lower_ascii (c : ascii) : ascii :=
  let n := N_of_ascii c in
  if ((65 <=? n) && (n <=? 90))%N then ascii_of_N (n + 32) else c.

Fixpoint lower (s : string) : string :=
  match s with
  | EmptyString => EmptyString
  | String c s' => String (lower_ascii c) (lower s')
  end.

(** [hashlib.sha1(data).hexdigest()], of the Python library: a string of
    lower-case hexadecimal digits. *)
Class Hashlib : Type := {
  sha1_hexdigest : list Byte.byte -> string;
  sha1_hexdigest_lower : forall data, lower (sha1_hexdigest data) = sha1_hexdigest data;
}.

Definition sha1_mismatch_error (e_sha1 sha1 : string) : string :=
  "sha1 mismatch: expected " +:+ e_sha1 +:+ ", was " +:+ sha1.

(** Lines 211 to 215. *)
Definition check_sha1 {H : Hashlib} (config : dict) (rom_bytes : list Byte.byte) : result unit :=
  match dict_get "sha1" config with
  | None => Ok tt
  | Some (YStr declared) =>
      let sha1 := sha1_hexdigest rom_bytes in
      let e_sha1 := lower declared in
      if decide (e_sha1 <> sha1) then log_error (sha1_mismatch_error e_sha1 sha1)
      else Ok tt
  | Some _ => Raise AttributeError
  end.

(** *** The cache *)

(** Whether [except Exception] catches the error; [SystemExit] is not an
    [Exception]. *)
Definition is_Exception (e : py_error) : bool :=
  match e with
  | SystemExit _ => false
  | _ => true
  end.

(** Lines 226 to 237; [pickled] is what opening and unpickling the cache
    file gives. *)
Definition load_cache (use_cache : bool) (pickled : result (gmap string yaml))
  : result (gmap string yaml) :=
  if use_cache then
    match pickled with
    | Ok store => Ok store
    | Raise e => if is_Exception e then Ok ∅ else Raise e
    end
  else Ok ∅.

(** Lines 239 to 246. *)
Definition invalidate_cache (use_cache : bool) (config : dict) (store : gmap string yaml)
  : gmap string yaml :=
  if use_cache && negb (py_eq (cache_get "__options__" store) (config_options config))
  then {[ "__options__" := config_options config ]}
  else store.

(** *** The scan pass *)

Definition with_given_symbols (segment : Segment) (syms : symbol_map * symbol_map) : Segment :=
  {| name := name segment; type := type segment;
     rom_start := rom_start segment; rom_end := rom_end segment;
     seg_vram_start := seg_vram_start segment; seg_vram_end := seg_vram_end segment;
     require_unique_name := require_unique_name segment;
     needs_symbols := needs_symbols segment;
     unique_id := unique_id segment; cache := cache segment;
     should_scan := should_scan segment; should_split := should_split segment;
     is_name_default := is_name_default segment;
     given_seg_symbols := syms.1; given_ext_symbols := syms.2;
     did_run := did_run segment |}.

Definition with_did_run (segment : Segment) : Segment :=
  {| name := name segment; type := type segment;
     rom_start := rom_start segment; rom_end := rom_end segment;
     seg_vram_start := seg_vram_start segment; seg_vram_end := seg_vram_end segment;
     require_unique_name := require_unique_name segment;
     needs_symbols := needs_symbols segment;
     unique_id := unique_id segment; cache := cache segment;
     should_scan := should_scan segment; should_split := should_split segment;
     is_name_default := is_name_default segment;
     given_seg_symbols := given_seg_symbols segment;
     given_ext_symbols := given_ext_symbols segment;
     did_run := true |}.

(** The statistics bucket of a segment, lines 263 to 265. *)
Definition bucket (segment : Segment) : string :=
  if bool_decide (type segment = "bin") && is_name_default segment then "unk"
  else type segment.

(** [segment.cache() == cache.get(segment.unique_id())] *)
Definition cache_hit (segment : Segment) (store : gmap string yaml) : bool :=
  py_eq (cache segment) (cache_get (unique_id segment) store).

(** The body of the scan loop, lines 263 to 291.  The segments the
    symbol partition consults are read for their ranges only, which no
    pass changes, so the list as initialised stands for [all_segments]. *)
Definition scan_segment (use_cache : bool) (all_symbols : list Symbol)
    (all_segments : list Segment) (segment : Segment) : M Segment :=
  let t := bucket segment in
  run modify (set_typ (Some t));
  do sizes <- gets seg_sizes;
  run (if decide (sizes !! t = None) then
         modify (fun st =>
           set_seg_cached (<[t := 0]> (seg_cached st))
             (set_seg_split (<[t := 0]> (seg_split st))
                (set_seg_sizes (<[t := 0]> (seg_sizes st)) st)))
       else pure tt);
  do sizes <- gets seg_sizes;
  do sizes <- lift (bump t (default 0 (size segment)) sizes);
  run modify (set_seg_sizes sizes);
  if should_scan segment then
    do store <- gets cache_store;
    if use_cache && cache_hit segment store then pure segment
    else
      let segment :=
        if needs_symbols segment
        then with_given_symbols segment (get_segment_symbols all_symbols segment all_segments)
        else segment in
      let segment := with_did_run segment in
      run modify (add_event (Scan (unique_id segment)));
      run modify (fun st => set_processed_segments (processed_segments st ++ [segment]) st);
      do split <- gets seg_split;
      do split <- lift (bump t 1 split);
      run modify (set_seg_split split);
      pure segment
  else pure segment.

(** *** The split pass *)

(** The body of the split loop, lines 296 to 310.  The counter of cache
    hits is indexed by [typ], which this loop does not assign. *)
Definition split_segment (use_cache : bool) (segment : Segment) : M unit :=
  do hit <-
    (if use_cache then
       let cached := cache segment in
       do store <- gets cache_store;
       if py_eq cached (cache_get (unique_id segment) store) then
         do t <- gets typ;
         do t <- lift (match t with
                       | Some t => Ok t
                       | None => Raise (NameError "typ")
                       end);
         do cached_count <- gets seg_cached;
         do cached_count <- lift (bump t 1 cached_count);
         run modify (set_seg_cached cached_count);
         pure true
       else
         run modify (set_cache_store (<[unique_id segment := cached]> store));
         pure false
     else pure false);
  if hit : bool then pure tt
  else if should_split segment then modify (add_event (Split (unique_id segment)))
  else pure tt.

(** The two passes, lines 260 to 310: the scan loop over all segments,
    then the split loop over all segments. *)
Definition scan_and_split (use_cache : bool) (all_symbols : list Symbol)
    (all_segments : list Segment) : M (list Segment) :=
  do all_segments <- for_each (scan_segment use_cache all_symbols all_segments) all_segments;
  run for_each (split_segment use_cache) all_segments;
  pure all_segments.

(** *** [main] *)

(** [config["segments"]], a list of descriptors. *)
Definition config_segments_of (config : dict) : result (list yaml) :=
  match dict_get "segments" config with
  | Some (YList l) => Ok l
  | Some _ => Raise TypeError
  | None => Raise (KeyError "segments")
  end.

Section main.
Context {SM : SegmentModule} {H : Hashlib}.

(** From the creation of the output directory to the saving of the
    cache: lines 217 to 310 and 358 to 363.  The emission of the linker
    files and the statistics, in between, are not part of the model. *)
Definition main_after_gate (config : dict) (rom_bytes : list Byte.byte)
    (pickled : result (gmap string yaml)) (all_symbols : list Symbol)
    (use_cache : bool) : M (list Segment) :=
  run modify (add_event Mkdir);
  do store <- lift (load_cache use_cache pickled);
  run modify (set_cache_store (invalidate_cache use_cache config store));
  do config_segments <- lift (config_segments_of config);
  do all_segments <- lift (initialize_segments config_segments);
  do all_segments <- scan_and_split use_cache all_symbols all_segments;
  do store <- gets cache_store;
  run (if bool_decide (store <> ∅) && use_cache then modify (add_event (Dump store))
       else pure tt);
  pure all_segments.

(** [documents] are the YAML documents of [config_path], [rom_bytes]
    the content of the target, [pickled] the outcome of reading the
    cache file and [all_symbols] the symbol table. *)
Definition main (documents : list dict) (rom_bytes : list Byte.byte)
    (pickled : result (gmap string yaml)) (all_symbols : list Symbol)
    (use_cache : bool) : M (list Segment) :=
  do config <- lift (load_config [] documents);
  run lift (check_sha1 config rom_bytes);
  main_after_gate config rom_bytes pickled all_symbols use_cache.
End main.

(** *** [do_statistics] *)

(** What can end the statistics: a target of no bytes, a quotient beyond
    the floats, or an error of the kinds above. *)
Inductive stats_error : Type :=
  | ZeroDivisionError
  | OverflowError
  | PyError (e : py_error).

(** What the statistics take from Python and from colorama: the floats,
    [a / b] on two integers with [b] not 0, undefined when the quotient
    is beyond the floats, the format [.2%] of a float, and three escape
    sequences. *)
Class Console : Type := {
  float : Type;
  true_div : Z -> Z -> option float;
  fmt_percent : float -> string;
  GREEN : string;
  RESET_ALL : string;
  DIM : string;
}.

(** [a / b] *)
Definition divide {C : Console} (a b : Z) : stats_error + float :=
  if decide (b = 0) then inl ZeroDivisionError
  else match true_div a b with
       | Some ratio => inr ratio
       | None => inl OverflowError
       end.

(** [f"{s:>width}"]: [s] with spaces on its left up to [width]
    characters. *)
Definition rjust (width : nat) (s : string) : string :=
  string_of_list_ascii (replicate (width - String.length s)%nat " "%char) +:+ s.

(** [seg_sizes] is a dict from type to bytes, its entries in insertion
    order; the keys of a dict are distinct.  [sizes_get k seg_sizes] is
    [seg_sizes.get(k)]. *)
Fixpoint sizes_get (k : string) (seg_sizes : list (string * Z)) : option Z :=
  match seg_sizes with
  | [] => None
  | (k', n) :: seg_sizes' => if decide (k' = k) then Some n else sizes_get k seg_sizes'
  end.

(** Line 95. *)
Definition unk_size (seg_sizes : list (string * Z)) : Z :=
  default 0 (sizes_get "unk" seg_sizes).

(** Lines 96 and 99 to 101. *)
Definition rest_size (seg_sizes : list (string * Z)) : Z :=
  fold_left (fun rest entry => if decide (entry.1 <> "unk") then rest + entry.2 else rest)
            seg_sizes 0.

(** The loop of lines 107 to 111 over the entries of [seg_sizes]: the
    lines written, and the error that ended the loop if one did. *)
Fixpoint type_lines {C : Console} (total_size : Z) (seg_split seg_cached : gmap string Z)
    (entries : list (string * Z)) : list string * option stats_error :=
  match entries with
  | [] => ([], None)
  | (typ, tmp_size) :: entries' =>
      if decide (typ <> "unk") then
        match divide tmp_size total_size with
        | inl e => ([], Some e)
        | inr tmp_ratio =>
            match seg_split !! typ with
            | None => ([], Some (PyError (KeyError typ)))
            | Some n_split =>
                match seg_cached !! typ with
                | None => ([], Some (PyError (KeyError typ)))
                | Some n_cached =>
                    let line :=
                      rjust 20 typ +:+ ": " +:+ rjust 8 (fmt_size tmp_size) +:+ " ("
                      +:+ fmt_percent tmp_ratio +:+ ") " +:+ GREEN +:+ str n_split
                      +:+ " split" +:+ RESET_ALL +:+ ", " +:+ DIM +:+ str n_cached
                      +:+ " cached" in
                    let rest := type_lines total_size seg_split seg_cached entries' in
                    (line :: rest.1, rest.2)
                end
            end
        end
      else type_lines total_size seg_split seg_cached entries'
  end.

(** The lines [do_statistics] writes with [log.write], and the error
    that ended it if one did. *)
Definition do_statistics {C : Console} (seg_sizes : list (string * Z))
    (rom_bytes : list Byte.byte) (seg_split seg_cached : gmap string Z)
    : list string * option stats_error :=
  let unk_size := unk_size seg_sizes in
  let rest_size := rest_size seg_sizes in
  let total_size := Z.of_nat (length rom_bytes) in
  match divide rest_size total_size with
  | inl e => ([], Some e)
  | inr known_ratio =>
      match divide unk_size total_size with
      | inl e => ([], Some e)
      | inr unk_ratio =>
          let first :=
            "Split " +:+ fmt_size rest_size +:+ " (" +:+ fmt_percent known_ratio
            +:+ ") in defined segments" in
          let middle := type_lines total_size seg_split seg_cached seg_sizes in
          match middle.2 with
          | Some e => (first :: middle.1, Some e)
          | None =>
              (first :: middle.1 ++
                 [rjust 20 "unknown" +:+ ": " +:+ rjust 8 (fmt_size unk_size) +:+ " ("
                  +:+ fmt_percent unk_ratio +:+ ") from unknown bin files"],
               None)
          end
      end
  end.

(** *** [main] with its statistics *)

(** The distinct elements of a list, each at its first occurrence: the
    order in which a loop over the list enters them in a dict. *)
Fixpoint first_occurrences (l : list string) : list string :=
  match l with
  | [] => []
  | k :: l' => k :: filter (fun k' => k' <> k) (first_occurrences l')
  end.

(** [seg_sizes] as the dict it is at line 356: the scan loop enters a
    type when it meets the first segment of it (lines 267 to 270), so the
    keys come in the order of the first segment of each bucket. *)
Definition sizes_in_order (all_segments : list Segment) (sizes : gmap string Z)
    : list (string * Z) :=
  omap (fun k => (fun n => (k, n)) <$> sizes !! k)
       (first_occurrences (bucket <$> all_segments)).

Section main_with_statistics.
Context {SM : SegmentModule} {C : Console}.

(** Lines 217 to 310: from the creation of the output directory to the
    end of the split loop. *)
Definition main_until_statistics (config : dict) (pickled : result (gmap string yaml))
    (all_symbols : list Symbol) (use_cache : bool) : M (list Segment) :=
  run modify (add_event Mkdir);
  do store <- lift (load_cache use_cache pickled);
  run modify (set_cache_store (invalidate_cache use_cache config store));
  do config_segments <- lift (config_segments_of config);
  do all_segments <- lift (initialize_segments config_segments);
  scan_and_split use_cache all_symbols all_segments.

(** Lines 217 to 310 and 355 to 363: as [main_after_gate], with the
    statistics between the split loop and the saving of the cache.  The
    result holds the lines of the statistics and either the error that
    ended the run or the segments.  The emission of the linker files, of
    the lists of undefined symbols and of the warnings is not part of
    the model. *)
Definition main_with_statistics (config : dict) (rom_bytes : list Byte.byte)
    (pickled : result (gmap string yaml)) (all_symbols : list Symbol) (use_cache : bool)
    (st : Locals) : (list string * (stats_error + list Segment)) * Locals :=
  match main_until_statistics config pickled all_symbols use_cache st with
  | (Raise e, st') => (([], inl (PyError e)), st')
  | (Ok all_segments, st') =>
      let report :=
        do_statistics (sizes_in_order all_segments (seg_sizes st')) rom_bytes
                      (seg_split st') (seg_cached st') in
      match report.2 with
      | Some e => ((report.1, inl e), st')
      | None =>
          ((report.1, inr all_segments),
           if bool_decide (cache_store st' <> ∅) && use_cache
           then add_event (Dump (cache_store st')) st' else st')
      end
  end.
End main_with_statistics.

(** *** [visualize] *)

(** The four lists [visualize] builds, lines 153 to 156; a value is a
    size, [None] when the segment has none. *)
Record Treemap : Type := mkTreemap {
  labels : list string;
  parents : list string;
  values : list (option Z);
  types : list string;
}.

(** The truth value of a size: [None] and 0 are false. *)
Definition size_truthy (n : option Z) : bool :=
  match n with
  | Some n => negb (n =? 0)
  | None => false
  end.

(** One append to each list. *)
Definition add_row (label parent typ : string) (value : option Z) (t : Treemap) : Treemap :=
  {| labels := labels t ++ [label]; parents := parents t ++ [parent];
     values := values t ++ [value]; types := types t ++ [typ] |}.

(** Lines 164 to 171, for one subsegment of a group. *)
Definition visualize_subsegment (segment : Segment) (t : Treemap) (sub : Segment) : Treemap :=
  if size_truthy (size sub) then
    add_row (if decide (name sub = name segment) then name sub +:+ "_sub" else name sub)
            (name segment) (type sub) (size sub) t
  else t.

Section visualize.
Context {SM : SegmentModule}.

(** [segment.subsegments] when the segment is a [CommonSegGroup], of
    [segtypes/common/group.py], and [None] when it is not. *)
Variable subsegments : Segment -> option (list Segment).

(** The body of the loop of line 161. *)
Definition visualize_segment (t : Treemap) (segment : Segment) : Treemap :=
  let t :=
    match subsegments segment with
    | Some subs => fold_left (visualize_subsegment segment) subs t
    | None => t
    end in
  add_row (name segment) "rom" (type segment) (size segment) t.

(** Lines 153 to 176. *)
Definition visualize_rows (all_segments : list Segment) : Treemap :=
  fold_left visualize_segment all_segments
    {| labels := ["rom"]; parents := [""]; values := [Some 0]; types := ["rom"] |}.

(** [visualize] up to the figure: the lists handed to the treemap. *)
Definition visualize (documents : list dict) : result Treemap :=
  let? config := load_config [] documents in
  let? config_segments := config_segments_of config in
  let? all_segments := initialize_segments config_segments in
  Ok (visualize_rows all_segments).
End visualize.

(** ** Notions used in the statements *)


(** The symbols a mapping holds at an address, none when the key is absent. *)
Definition symbols_at (m : symbol_map) (k : Z) : list Symbol := default [] (m !! k).

(** The number of symbols a mapping holds, over all its keys. *)
Definition symbol_count (m : symbol_map) : nat :=
  map_fold (fun _ l n => (length l + n)%nat) 0%nat m.

(** The test that sends a symbol to [seg_syms]. *)
Definition owns (segment : Segment) (all_segments : list Segment) (symbol : Symbol) : bool :=
  if is_symbol_isolated symbol all_segments && negb (rom_truthy (rom symbol))
  then contains_vram segment (vram_start symbol)
  else rom_and_contains segment (rom symbol).

(** The descriptors of [todo] that are not markers, each with its index
    in the enumeration, [i] being the index of the first. *)
Definition real_entries (i : nat) (todo : list yaml) : list (nat * yaml) :=
  filter (fun entry => is_rompos_marker entry.2 = false) (zip (seq i (length todo)) todo).

(** The range of [segment] is the one resolved for the descriptor
    [entry]: its start is the descriptor's, its end is the start of the
    entry that follows in [config_segments], which for a marker is the
    address it carries. *)
Definition resolved_from {SM : SegmentModule} (config_segments : list yaml)
    (entry : nat * yaml) (segment : Segment) : Prop :=
  exists next_yaml this_start next_start,
    config_segments !! (entry.1 + 1)%nat = Some next_yaml /\
    parse_segment_start entry.2 = Ok this_start /\
    parse_segment_start next_yaml = Ok next_start /\
    (forall a, next_yaml = YList [YInt a] -> next_start = a) /\
    rom_start segment = this_start /\ rom_end segment = Some next_start.


(** The store after the split pass wrote the fingerprint of every
    segment of a list. *)
Definition store_with (store : gmap string yaml) (segments : list Segment) : gmap string yaml :=
  foldl (fun store segment => <[unique_id segment := cache segment]> store) store segments.

(** The locals of [main] at line 248, once the cache is loaded and
    checked against the options. *)
Definition locals_at_initialize (store : gmap string yaml) : Locals :=
  set_cache_store store (add_event Mkdir initial_locals).


Fixpoint split_events (segments : list Segment) : list event :=
  match segments with
  | [] => []
  | segment :: segments' =>
      (if should_split segment then [Split (unique_id segment)] else [])
      ++ split_events segments'
  end.

(** What a scan keeps of a segment. *)
Definition same_identity (segment segment' : Segment) : Prop :=
  unique_id segment' = unique_id segment /\ cache segment' = cache segment /\
  should_split segment' = should_split segment.

(** The names the loop has seen are those of the segments built so far
    that require a unique name, and these names are distinct. *)
Definition names_seen (seen : gset string) (ret : list Segment) : Prop :=
  (forall segment, segment ∈ ret -> require_unique_name segment = true ->
     name segment ∈ seen) /\
  NoDup (name <$> filter (fun segment => require_unique_name segment = true) ret).

(** The three counters have the same keys, as they do from the start of
    the scan loop on. *)
Definition counters_dom (st : Locals) : Prop :=
  forall k, (is_Some (seg_sizes st !! k) <-> is_Some (seg_split st !! k)) /\
            (is_Some (seg_sizes st !! k) <-> is_Some (seg_cached st !! k)).

(** The count a counter holds for a type, 0 when the type has no entry. *)
Definition tally (counter : gmap string Z) (k : string) : Z := default 0 (counter !! k).

(** Whether the scan loop scans a segment: it asks for it and, with
    caching, its fingerprint is not the one stored. *)
Definition is_scanned (use_cache : bool) (store : gmap string yaml) (segment : Segment) : bool :=
  should_scan segment && negb (use_cache && cache_hit segment store).

(** The segment as the scan loop leaves it. *)
Definition scanned_segment (use_cache : bool) (store : gmap string yaml)
    (all_symbols : list Symbol) (all_segments : list Segment) (segment : Segment) : Segment :=
  if is_scanned use_cache store segment then
    with_did_run
      (if needs_symbols segment
       then with_given_symbols segment (get_segment_symbols all_symbols segment all_segments)
       else segment)
  else segment.

(** The bytes of the segments of a bucket, and the number of them that
    are scanned. *)
Fixpoint bucket_bytes (t : string) (segments : list Segment) : Z :=
  match segments with
  | [] => 0
  | segment :: segments' =>
      (if decide (bucket segment = t) then default 0 (size segment) else 0)
      + bucket_bytes t segments'
  end.

Fixpoint bucket_scans (use_cache : bool) (store : gmap string yaml) (t : string)
    (segments : list Segment) : Z :=
  match segments with
  | [] => 0
  | segment :: segments' =>
      (if decide (bucket segment = t)
       then (if is_scanned use_cache store segment then 1 else 0) else 0)
      + bucket_scans use_cache store t segments'
  end.

(** The total of the sizes of a list of segments, a segment without
    size counting for 0. *)
Definition total_bytes (segments : list Segment) : Z :=
  foldr (fun segment total => default 0 (size segment) + total) 0 segments.

(** The entries the scan loop leaves in [seg_sizes], in order. *)
Definition statistics_sizes (all_segments : list Segment) : list (string * Z) :=
  (fun k => (k, bucket_bytes k all_segments)) <$> first_occurrences (bucket <$> all_segments).

(** The figures the statistics divide by the size of the target. *)
Definition figures (seg_sizes : list (string * Z)) : list Z :=
  rest_size seg_sizes :: unk_size seg_sizes
  :: (filter (fun entry => entry.1 <> "unk") seg_sizes).*2.

(** Every figure of the statistics has a ratio to [total_size] within
    the floats. *)
Definition representable {C : Console} (total_size : Z) (seg_sizes : list (string * Z)) : Prop :=
  Forall (fun n => is_Some (true_div n total_size)) (figures seg_sizes).

(** The rows [visualize] adds for a segment: one for each subsegment
    with a size other than 0, and one for the segment. *)
Definition rows_of (subsegments : Segment -> option (list Segment)) (segment : Segment) : nat :=
  S (length (filter (fun sub => size_truthy (size sub) = true)
                    (default [] (subsegments segment)))).

(** The four lists have the same length. *)
Definition aligned (t : Treemap) (n : nat) : Prop :=
  length (labels t) = n /\ length (parents t) = n /\
  length (values t) = n /\ length (types t) = n.

(** No row is its own parent, unless it is named "rom". *)
Definition no_self_parent (t : Treemap) : Prop :=
  Forall (fun row => row.1 = row.2 -> row.1 = "rom") (zip (labels t) (parents t)).

(** ** Reference implementations and concrete inputs *)

(** Modelled from the spec: the segment types as "a registry mapping type
    tag to a constructor"; an entry says whether the type requires a
    unique name and whether it needs symbols. *)
Record seg_class : Type := mkSegClass {
  cls_type : string;
  cls_require_unique_name : bool;
  cls_needs_symbols : bool;
}.

(** Modelled from the spec: four segment types; "lib" does not require a
    unique name. *)
Definition ref_registry : list seg_class :=
  [ mkSegClass "bin" true false; mkSegClass "code" true true;
    mkSegClass "data" true true; mkSegClass "lib" false true ].

(** Modelled from the spec: a descriptor is a mapping with the fields
    [start], [type], [name] and [vram], or the list of these in this
    order; a marker is the list of its address alone. *)
Definition ref_field (key : string) (pos : nat) (seg_yaml : yaml) : result yaml :=
  match seg_yaml with
  | YDict d => match dict_get key d with
               | Some v => Ok v
               | None => Raise (KeyError key)
               end
  | YList l => py_index l pos
  | _ => Raise TypeError
  end.

(** Modelled from the spec: the type tag of a descriptor. *)
Definition ref_parse_segment_type (seg_yaml : yaml) : result string :=
  let? v := ref_field "type" 1 seg_yaml in
  match v with
  | YStr t => Ok t
  | _ => Raise TypeError
  end.

(** Modelled from the spec: the lookup "fails with UnknownSegmentType if
    absent". *)
Definition ref_get_class_for_type (seg_type : string) : result seg_class :=
  match filter (fun c => cls_type c = seg_type) ref_registry with
  | c :: _ => Ok c
  | [] => log_error ("could not load segment type '" +:+ seg_type +:+ "'")
  end.

(** Modelled from the spec: the declared start of a descriptor, the
    address of a marker. *)
Definition ref_parse_segment_start (seg_yaml : yaml) : result Z :=
  let? v := ref_field "start" 0 seg_yaml in
  match v with
  | YInt a => Ok a
  | _ => Raise TypeError
  end.

(** Modelled from the spec: the segment gets the range it is given, its
    name from the descriptor or else a default made of type and start,
    an id "derived deterministically from type, name, and range" and a
    fingerprint of "its resolved configuration". *)
Definition ref_from_yaml (cls : seg_class) (seg_yaml : yaml) (this_start next_start : Z)
  : result Segment :=
  let given_name := match ref_field "name" 2 seg_yaml with
                    | Ok (YStr n) => Some n
                    | _ => None
                    end in
  let vram := match ref_field "vram" 3 seg_yaml with
              | Ok (YInt v) => Some v
              | _ => None
              end in
  let nm := default (cls_type cls +:+ "_" +:+ str this_start) given_name in
  Ok {| name := nm; type := cls_type cls;
        rom_start := this_start; rom_end := Some next_start;
        seg_vram_start := vram;
        seg_vram_end := (fun v => v + (next_start - this_start)) <$> vram;
        require_unique_name := cls_require_unique_name cls;
        needs_symbols := cls_needs_symbols cls;
        unique_id := cls_type cls +:+ "_" +:+ nm;
        cache := YList [seg_yaml; YInt next_start];
        should_scan := true; should_split := true;
        is_name_default := bool_decide (given_name = None);
        given_seg_symbols := ∅; given_ext_symbols := ∅; did_run := false |}.

(** Modelled from the spec: the static methods of [Segment], put
    together from the definitions above. *)
Definition ref_segment_module : SegmentModule := {|
  segment_class := seg_class;
  parse_segment_type := ref_parse_segment_type;
  get_class_for_type := ref_get_class_for_type;
  parse_segment_start := ref_parse_segment_start;
  from_yaml := ref_from_yaml;
|}.

(** A stand-in for the digest of the Python library, used for concrete
    inputs only: it tells the empty content from the others. *)
Definition toy_hashlib : Hashlib := {|
  sha1_hexdigest data :=
    match data with
    | [] => "da39a3ee5e6b4b0d3255bfef95601890afd80709"
    | _ => "0000000000000000000000000000000000000000"
    end;
  sha1_hexdigest_lower data :=
    match data with
    | [] => eq_refl
    | _ => eq_refl
    end;
|}.

(** The documents of the example of the specification. *)
Definition spec_main_config : dict :=
  [("segments", YList [YInt 1; YInt 2]); ("options", YDict [("x", YInt 1)])].
Definition spec_additional_config : dict :=
  [("segments", YList [YInt 3]); ("options", YDict [("y", YInt 2)])].

(** Two segments with disjoint vram ranges and a symbol inside the first,
    used as concrete inputs below. *)
Definition demo_segment (nm : string) (rs re vs ve : Z) : Segment :=
  {| name := nm; type := "code"; rom_start := rs; rom_end := Some re;
     seg_vram_start := Some vs; seg_vram_end := Some ve;
     require_unique_name := true; needs_symbols := true;
     unique_id := "code_" +:+ nm; cache := YList [YStr nm; YInt re];
     should_scan := true; should_split := true; is_name_default := false;
     given_seg_symbols := ∅; given_ext_symbols := ∅; did_run := false |}.

Definition demo_boot : Segment := demo_segment "boot" 0x1000 0x2000 0x80000100 0x80000200.
Definition demo_main : Segment := demo_segment "main" 0x2000 0x3000 0x80000300 0x80000400.
Definition demo_symbol : Symbol :=
  {| sym_name := "func_80000150"; vram_start := 0x80000150; rom := None |}.

(** Descriptor lists used as concrete inputs below. *)
Definition seg3 (start : Z) (typ nm : string) : yaml := YList [YInt start; YStr typ; YStr nm].
Definition marker (a : Z) : yaml := YList [YInt a].

(** The example of the specification, [{start:0}, {start:0x1000,
    name:"main"}, {start:0x2000}] with the last entry a marker; the two
    descriptors are given a type. *)
Definition spec_example_segments : list yaml :=
  [ YDict [("start", YInt 0); ("type", YStr "bin")];
    YDict [("start", YInt 0x1000); ("type", YStr "code"); ("name", YStr "main")];
    marker 0x2000 ].

(** A stand-in for the floats and the escape sequences, used for
    concrete inputs only: a ratio is kept as its two integers and shown
    as a whole percentage. *)
Definition toy_console : Console := {|
  float := Z * Z;
  true_div a b := Some (a, b);
  fmt_percent ratio := str (100 * ratio.1 `div` ratio.2) +:+ "%";
  GREEN := "<green>";
  RESET_ALL := "<reset>";
  DIM := "<dim>";
|}.

(** A configuration of two segments of different types and the cache a
    previous run left for it, in which only the first segment, "boot" of
    type "code", is up to date; used as a concrete input below. *)
Definition stats_options : yaml := YDict [("platform", YStr "n64")].

Definition stats_config : dict :=
  [ ("options", stats_options);
    ("segments", YList [seg3 0 "code" "boot"; seg3 0x1000 "data" "tables"; marker 0x2000]) ].

Definition stats_stored : gmap string yaml :=
  {[ "__options__" := stats_options;
     "code_boot" := YList [seg3 0 "code" "boot"; YInt 0x1000] ]}.



(* ================================================================== *)
(** * Properties *)

(** ** [fmt_size] *)

Lemma fmt_size_B (n : Z) : n <= 1000 -> fmt_size n = str n +:+ " B".
Proof.
  intros Hn. unfold fmt_size.
  destruct (Z.gtb_spec n 1000000); [lia|].
  destruct (Z.gtb_spec n 1000); [lia|]. reflexivity.
Qed.

Lemma fmt_size_KB (n : Z) :
  1000 < n <= 1000000 -> fmt_size n = str (n `div` 1000) +:+ " KB".
Proof.
  intros Hn. unfold fmt_size.
  destruct (Z.gtb_spec n 1000000); [lia|].
  destruct (Z.gtb_spec n 1000); [|lia]. reflexivity.
Qed.

Lemma fmt_size_MB (n : Z) :
  1000000 < n -> fmt_size n = str (n `div` 1000000) +:+ " MB".
Proof.
  intros Hn. unfold fmt_size.
  destruct (Z.gtb_spec n 1000000); [|lia]. reflexivity.
Qed.

(** Away from the two thresholds the unit is the one the magnitude asks
    for. *)
Lemma fmt_size_spec (n : Z) :
  0 <= n ->
  (n < 1000 -> fmt_size n = str n +:+ " B") /\
  (1000 < n < 1000000 -> fmt_size n = str (n `div` 1000) +:+ " KB") /\
  (1000000 < n -> fmt_size n = str (n `div` 1000000) +:+ " MB").
Proof.
  intros _. split_and!; intros Hn.
  - apply fmt_size_B. lia.
  - apply fmt_size_KB. lia.
  - by apply fmt_size_MB.
Qed.

Example fmt_size_examples :
  fmt_size 999 = "999 B" /\ fmt_size 1500 = "1 KB" /\ fmt_size 2500000 = "2 MB".
Proof. repeat split; vm_compute; reflexivity. Qed.

(** C5.  At the two thresholds the formatter stays in the smaller unit:
    [fmt_size 1000] is "1000 B", not "1 KB", and [fmt_size 1000000] is
    "1000 KB", not "1 MB"; the comparisons of the source are strict. *)
Theorem fmt_size_thresholds :
  fmt_size 1000 = "1000 B" /\ fmt_size 1000 <> str (1000 `div` 1000) +:+ " KB" /\
  fmt_size 1000000 = "1000 KB" /\ fmt_size 1000000 <> str (1000000 `div` 1000000) +:+ " MB".
Proof. repeat split; try (vm_compute; reflexivity); vm_compute; discriminate. Qed.

(** ** [merge_configs] *)




Lemma dict_get_None k (d : dict) : dict_get k d = None <-> k ∉ d.*1.
Proof.
  induction d as [|[k' v'] d IH]; simpl.
  - split; [intros _; apply not_elem_of_nil | done].
  - rewrite not_elem_of_cons. destruct (decide (k = k')) as [->|Hne].
    + split; [done | intros [? _]; done].
    + rewrite IH. tauto.
Qed.

Lemma merge_configs_nil main : merge_configs main [] = Ok main.
Proof. reflexivity. Qed.

Lemma merge_configs_cons main curkey new todo :
  merge_configs main ((curkey, new) :: todo) =
  match dict_get curkey main with
  | None => merge_configs (dict_set curkey new main) todo
  | Some old =>
      if decide (type_of old <> type_of new) then log_error (merge_type_error curkey)
      else match old with
           | YList l =>
               match new with
               | YList l' => merge_configs (dict_set curkey (YList (l ++ l')) main) todo
               | _ => Raise TypeError
               end
           | YDict sub =>
               match merge_into sub new with
               | Ok merged => merge_configs (dict_set curkey (YDict merged) main) todo
               | Raise e => Raise e
               end
           | _ => merge_configs (dict_set curkey new main) todo
           end
  end.
Proof.
  unfold merge_configs. simpl.
  destruct (dict_get curkey main) as [old|]; [|reflexivity].
  destruct (decide (type_of old <> type_of new)); [reflexivity|].
  destruct old; try reflexivity.
Qed.









(** ** [get_segment_symbols] *)

Lemma append_symbol_insert (m : symbol_map) symbol :
  append_symbol m symbol
  = <[vram_start symbol := symbols_at m (vram_start symbol) ++ [symbol]]> m.
Proof.
  unfold append_symbol, symbols_at. apply map_eq. intros i.
  destruct (decide (vram_start symbol = i)) as [<-|Hne].
  - rewrite lookup_alter_eq, lookup_insert_eq.
    destruct (m !! vram_start symbol) as [l|] eqn:Hl; simpl.
    + by rewrite Hl.
    + by rewrite lookup_insert_eq.
  - rewrite lookup_alter_ne, lookup_insert_ne by done.
    destruct (m !! vram_start symbol); [done|]. by rewrite lookup_insert_ne.
Qed.

Lemma symbols_at_append (m : symbol_map) symbol k :
  symbols_at (append_symbol m symbol) k
  = if decide (vram_start symbol = k) then symbols_at m k ++ [symbol] else symbols_at m k.
Proof.
  rewrite append_symbol_insert. unfold symbols_at at 1. rewrite lookup_insert.
  case_decide; subst; done.
Qed.

Lemma symbol_count_append (m : symbol_map) symbol :
  symbol_count (append_symbol m symbol) = S (symbol_count m).
Proof.
  rewrite append_symbol_insert. unfold symbol_count, symbols_at.
  destruct (m !! vram_start symbol) as [l|] eqn:Hl; simpl.
  - rewrite <- insert_delete_eq.
    rewrite map_fold_insert_L; [|intros; lia|apply lookup_delete_eq].
    rewrite (map_fold_delete_L _ _ (vram_start symbol) l m); [|intros; lia|done].
    rewrite length_app. simpl. lia.
  - rewrite map_fold_insert_L; [|intros; lia|done]. simpl. lia.
Qed.

Lemma append_symbol_nonempty (m : symbol_map) symbol :
  (forall k l, m !! k = Some l -> l <> []) ->
  forall k l, append_symbol m symbol !! k = Some l -> l <> [].
Proof.
  intros Hm k l. rewrite append_symbol_insert, lookup_insert.
  case_decide; [|apply Hm]. intros [= <-]. by destruct (symbols_at m (vram_start symbol)).
Qed.

Lemma place_symbol_owns segment all_segments seg_syms other_syms symbol :
  place_symbol segment all_segments (seg_syms, other_syms) symbol
  = if owns segment all_segments symbol
    then (append_symbol seg_syms symbol, other_syms)
    else (seg_syms, append_symbol other_syms symbol).
Proof.
  unfold place_symbol, owns.
  destruct (is_symbol_isolated symbol all_segments && negb (rom_truthy (rom symbol))); done.
Qed.

(** The loop, started from any pair of mappings: each mapping gains, at
    every address, the symbols of the table it is sent, in table order. *)
Lemma place_symbols_fold segment all_segments all_symbols seg_syms other_syms :
  let res := fold_left (place_symbol segment all_segments) all_symbols (seg_syms, other_syms) in
  (forall k, symbols_at res.1 k = symbols_at seg_syms k ++
     filter (fun s => owns segment all_segments s = true /\ vram_start s = k) all_symbols) /\
  (forall k, symbols_at res.2 k = symbols_at other_syms k ++
     filter (fun s => owns segment all_segments s = false /\ vram_start s = k) all_symbols) /\
  (symbol_count res.1 + symbol_count res.2
   = symbol_count seg_syms + symbol_count other_syms + length all_symbols)%nat /\
  ((forall k l, seg_syms !! k = Some l -> l <> []) ->
   forall k l, res.1 !! k = Some l -> l <> []) /\
  ((forall k l, other_syms !! k = Some l -> l <> []) ->
   forall k l, res.2 !! k = Some l -> l <> []).
Proof.
  revert seg_syms other_syms.
  induction all_symbols as [|symbol rest IH]; intros seg_syms other_syms; cbn [fold_left].
  - simpl. repeat split; try done; intros k; by rewrite app_nil_r.
  - rewrite place_symbol_owns.
    destruct (owns segment all_segments symbol) eqn:Hown.
    + destruct (IH (append_symbol seg_syms symbol) other_syms) as (I1 & I2 & I3 & I4 & I5).
      repeat split.
      * intros k. rewrite I1, symbols_at_append, filter_cons.
        destruct (decide (vram_start symbol = k)) as [->|Hne].
        -- rewrite decide_True by done. by rewrite <- app_assoc.
        -- rewrite decide_False by (intros [_ ?]; done). done.
      * intros k. rewrite I2, filter_cons.
        rewrite decide_False by (intros [? _]; congruence). done.
      * rewrite I3, symbol_count_append. cbn [length]. lia.
      * intros Hne. apply I4. by apply append_symbol_nonempty.
      * done.
    + destruct (IH seg_syms (append_symbol other_syms symbol)) as (I1 & I2 & I3 & I4 & I5).
      repeat split.
      * intros k. rewrite I1, filter_cons.
        rewrite decide_False by (intros [? _]; congruence). done.
      * intros k. rewrite I2, symbols_at_append, filter_cons.
        destruct (decide (vram_start symbol = k)) as [->|Hne].
        -- rewrite decide_True by done. by rewrite <- app_assoc.
        -- rewrite decide_False by (intros [_ ?]; done). done.
      * rewrite I3, symbol_count_append. cbn [length]. lia.
      * done.
      * intros Hne. apply I5. by apply append_symbol_nonempty.
Qed.

Lemma get_segment_symbols_at all_symbols segment all_segments k :
  symbols_at (get_segment_symbols all_symbols segment all_segments).1 k
    = filter (fun s => owns segment all_segments s = true /\ vram_start s = k) all_symbols /\
  symbols_at (get_segment_symbols all_symbols segment all_segments).2 k
    = filter (fun s => owns segment all_segments s = false /\ vram_start s = k) all_symbols.
Proof.
  unfold get_segment_symbols.
  destruct (place_symbols_fold segment all_segments all_symbols ∅ ∅) as (I1 & I2 & _).
  split; [apply I1 | apply I2].
Qed.

(** C10.  For every segment and every table, [get_segment_symbols] sends
    each symbol of the table to exactly one of the two mappings, under
    the key equal to its vram start, appending: at every address each
    mapping holds, in table order and with all aliases, the symbols of
    the table it was sent; no key holds an empty list; and the two
    mappings together hold as many symbols as the table. *)
Theorem get_segment_symbols_partition all_symbols segment all_segments :
  let seg_syms := (get_segment_symbols all_symbols segment all_segments).1 in
  let other_syms := (get_segment_symbols all_symbols segment all_segments).2 in
  (forall k, symbols_at seg_syms k
     = filter (fun s => owns segment all_segments s = true /\ vram_start s = k) all_symbols) /\
  (forall k, symbols_at other_syms k
     = filter (fun s => owns segment all_segments s = false /\ vram_start s = k) all_symbols) /\
  (forall k l, seg_syms !! k = Some l \/ other_syms !! k = Some l ->
     l <> [] /\ forall s, s ∈ l -> vram_start s = k) /\
  (forall s, s ∈ all_symbols ->
     (s ∈ symbols_at seg_syms (vram_start s) /\ forall k, s ∉ symbols_at other_syms k) \/
     (s ∈ symbols_at other_syms (vram_start s) /\ forall k, s ∉ symbols_at seg_syms k)) /\
  (symbol_count seg_syms + symbol_count other_syms = length all_symbols)%nat.
Proof.
  intros seg_syms other_syms.
  assert (H1 : forall k, symbols_at seg_syms k
     = filter (fun s => owns segment all_segments s = true /\ vram_start s = k) all_symbols)
    by (intros k; apply get_segment_symbols_at).
  assert (H2 : forall k, symbols_at other_syms k
     = filter (fun s => owns segment all_segments s = false /\ vram_start s = k) all_symbols)
    by (intros k; apply get_segment_symbols_at).
  destruct (place_symbols_fold segment all_segments all_symbols ∅ ∅)
    as (_ & _ & I3 & I4 & I5). fold (get_segment_symbols all_symbols segment all_segments) in *.
  fold seg_syms in I3, I4. fold other_syms in I3, I5.
  split; [exact H1|]. split; [exact H2|]. split; [|split; [|exact I3]].
  - intros k l Hl. split.
    + destruct Hl as [Hl|Hl]; [eapply I4 | eapply I5]; try exact Hl;
        intros ? ?; by rewrite lookup_empty.
    + intros s Hs. destruct Hl as [Hl|Hl].
      * pose proof (H1 k) as Hk. unfold symbols_at in Hk. rewrite Hl in Hk. simpl in Hk.
        rewrite Hk in Hs. by apply list_elem_of_filter in Hs as [[_ ?] _].
      * pose proof (H2 k) as Hk. unfold symbols_at in Hk. rewrite Hl in Hk. simpl in Hk.
        rewrite Hk in Hs. by apply list_elem_of_filter in Hs as [[_ ?] _].
  - intros s Hs. destruct (owns segment all_segments s) eqn:Hown; [left|right].
    + split; [rewrite H1; by apply list_elem_of_filter|].
      intros k. rewrite H2. intros [[? _] _]%list_elem_of_filter. congruence.
    + split; [rewrite H2; by apply list_elem_of_filter|].
      intros k. rewrite H1. intros [[? _] _]%list_elem_of_filter. congruence.
Qed.

(** *** Isolated symbols *)

Lemma owns_isolated_no_rom segment all_segments symbol :
  is_symbol_isolated symbol all_segments = true -> rom symbol = None ->
  owns segment all_segments symbol = contains_vram segment (vram_start symbol).
Proof. intros Hiso Hrom. unfold owns. rewrite Hiso, Hrom. done. Qed.

Lemma sole_container_isolated all_segments owner symbol :
  filter (fun segment => contains_vram segment (vram_start symbol) = true) all_segments
    = [owner] ->
  is_symbol_isolated symbol all_segments = true /\
  contains_vram owner (vram_start symbol) = true /\
  forall other, other ∈ all_segments -> other <> owner ->
    contains_vram other (vram_start symbol) = false.
Proof.
  intros Hsole. repeat split.
  - unfold is_symbol_isolated. rewrite Hsole. done.
  - assert (Hin : owner ∈ filter
        (fun segment => contains_vram segment (vram_start symbol) = true) all_segments)
      by (rewrite Hsole; apply list_elem_of_here).
    by apply list_elem_of_filter in Hin as [? _].
  - intros other Hin Hne.
    destruct (contains_vram other (vram_start symbol)) eqn:Hc; [|done].
    assert (Hin' : other ∈ filter
        (fun segment => contains_vram segment (vram_start symbol) = true) all_segments)
      by (by apply list_elem_of_filter).
    rewrite Hsole in Hin'. apply list_elem_of_singleton in Hin'. done.
Qed.

(** C1, the claim as stated fails: with two segments whose vram ranges
    are disjoint and a symbol without ROM address inside the first one
    only, the partition computed for the second segment holds the symbol
    in its external set, under the symbol's address. *)
Lemma isolated_symbol_in_other_external :
  let all_segments := [demo_boot; demo_main] in
  filter (fun segment => contains_vram segment (vram_start demo_symbol) = true) all_segments
    = [demo_boot] /\
  rom demo_symbol = None /\
  demo_main ∈ all_segments /\ demo_main <> demo_boot /\
  (get_segment_symbols [demo_symbol] demo_main all_segments).2 !! vram_start demo_symbol
    = Some [demo_symbol].
Proof.
  repeat split.
  - apply list_elem_of_further, list_elem_of_here.
  - discriminate.
Qed.

(** C1, amended.  A symbol of the table without ROM address whose vram
    address is contained by exactly one segment of the list is, in the
    partition computed for that segment, in the owned set under its
    address and nowhere in the external set; in the partition computed
    for any other segment of the list it is nowhere in the owned set and
    is in the external set under its address. *)
Theorem isolated_symbol_attribution all_symbols all_segments owner symbol :
  symbol ∈ all_symbols ->
  rom symbol = None ->
  filter (fun segment => contains_vram segment (vram_start symbol) = true) all_segments
    = [owner] ->
  (symbol ∈ symbols_at (get_segment_symbols all_symbols owner all_segments).1
              (vram_start symbol) /\
   forall k, symbol ∉ symbols_at (get_segment_symbols all_symbols owner all_segments).2 k) /\
  (forall other, other ∈ all_segments -> other <> owner ->
     (forall k, symbol ∉ symbols_at (get_segment_symbols all_symbols other all_segments).1 k) /\
     symbol ∈ symbols_at (get_segment_symbols all_symbols other all_segments).2
                (vram_start symbol)).
Proof.
  intros Hin Hrom Hsole.
  destruct (sole_container_isolated _ _ _ Hsole) as (Hiso & Hown & Hothers).
  split; [split|].
  - destruct (get_segment_symbols_at all_symbols owner all_segments (vram_start symbol))
      as [-> _].
    apply list_elem_of_filter. rewrite owns_isolated_no_rom by done. done.
  - intros k.
    destruct (get_segment_symbols_at all_symbols owner all_segments k) as [_ ->].
    intros [[Hf _] _]%list_elem_of_filter.
    rewrite owns_isolated_no_rom in Hf by done. congruence.
  - intros other Hother Hne. specialize (Hothers other Hother Hne). split.
    + intros k.
      destruct (get_segment_symbols_at all_symbols other all_segments k) as [-> _].
      intros [[Hf _] _]%list_elem_of_filter.
      rewrite owns_isolated_no_rom in Hf by done. congruence.
    + destruct (get_segment_symbols_at all_symbols other all_segments (vram_start symbol))
        as [_ ->].
      apply list_elem_of_filter. rewrite owns_isolated_no_rom by done. done.
Qed.

Lemma isolated_symbol_attribution_witness :
  demo_symbol ∈ symbols_at
    (get_segment_symbols [demo_symbol] demo_boot [demo_boot; demo_main]).1
    (vram_start demo_symbol) /\
  demo_symbol ∈ symbols_at
    (get_segment_symbols [demo_symbol] demo_main [demo_boot; demo_main]).2
    (vram_start demo_symbol).
Proof.
  assert (Hin : demo_symbol ∈ [demo_symbol]) by apply list_elem_of_here.
  destruct (isolated_symbol_attribution [demo_symbol] [demo_boot; demo_main]
              demo_boot demo_symbol Hin eq_refl eq_refl) as [[Howned _] Hothers].
  split; [exact Howned|].
  apply Hothers; [apply list_elem_of_further, list_elem_of_here | discriminate].
Defined.

(** ** [initialize_segments] *)

Section initialize_segments_facts.
Context {SM : SegmentModule}.

Lemma py_index_Ok {A : Type} (l : list A) i x : py_index l i = Ok x <-> l !! i = Some x.
Proof. unfold py_index. destruct (l !! i); split; congruence. Qed.

(** A descriptor that is not a marker is initialised only if an entry
    follows it. *)
Lemma initialize_segment_Ok config_segments i seg_yaml seen ret st :
  initialize_segment config_segments i seg_yaml seen ret = Ok st ->
  exists seg_type cls this_start next_yaml next_start segment,
    parse_segment_type seg_yaml = Ok seg_type /\
    get_class_for_type seg_type = Ok cls /\
    parse_segment_start seg_yaml = Ok this_start /\
    config_segments !! (i + 1)%nat = Some next_yaml /\
    parse_segment_start next_yaml = Ok next_start /\
    from_yaml cls seg_yaml this_start next_start = Ok segment /\
    st.2 = ret ++ [segment].
Proof.
  unfold initialize_segment.
  destruct (parse_segment_type seg_yaml) as [seg_type|] eqn:Ht; [simpl|done].
  destruct (get_class_for_type seg_type) as [cls|] eqn:Hc; [simpl|done].
  destruct (parse_segment_start seg_yaml) as [this_start|] eqn:Hs; [simpl|done].
  destruct (py_index config_segments (i + 1)) as [next_yaml|] eqn:Hi; [simpl|done].
  apply py_index_Ok in Hi.
  destruct (parse_segment_start next_yaml) as [next_start|] eqn:Hn; [simpl|done].
  destruct (from_yaml cls seg_yaml this_start next_start) as [segment|] eqn:Hf; [simpl|done].
  intros Hst. exists seg_type, cls, this_start, next_yaml, next_start, segment.
  repeat split; try done.
  destruct (require_unique_name segment); simpl in Hst.
  - destruct (decide (name segment ∈ seen)); simpl in Hst; [done|]. by injection Hst as <-.
  - by injection Hst as <-.
Qed.

(** At the last index the lookahead is out of range. *)
Lemma initialize_segment_last config_segments i seg_yaml seen ret seg_type cls this_start :
  length config_segments = S i ->
  parse_segment_type seg_yaml = Ok seg_type ->
  get_class_for_type seg_type = Ok cls ->
  parse_segment_start seg_yaml = Ok this_start ->
  initialize_segment config_segments i seg_yaml seen ret = Raise IndexError.
Proof.
  intros Hlen Ht Hc Hs. unfold initialize_segment. rewrite Ht. simpl.
  rewrite Hc. simpl. rewrite Hs. simpl.
  unfold py_index. rewrite lookup_ge_None_2 by lia. done.
Qed.

Lemma initialize_loop_app config_segments i todo1 todo2 seen ret :
  initialize_loop config_segments i (todo1 ++ todo2) seen ret =
  let? st := initialize_loop config_segments i todo1 seen ret in
  initialize_loop config_segments (i + length todo1) todo2 st.1 st.2.
Proof.
  revert i seen ret. induction todo1 as [|seg_yaml todo1 IH]; intros i seen ret; simpl.
  - by rewrite Nat.add_0_r.
  - destruct (is_rompos_marker seg_yaml).
    + rewrite IH. by rewrite Nat.add_succ_r.
    + destruct (initialize_segment config_segments i seg_yaml seen ret) as [[seen' ret']|];
        [|done].
      rewrite IH. by rewrite Nat.add_succ_r.
Qed.

Lemma initialize_segments_snoc pre seg_yaml :
  is_rompos_marker seg_yaml = false ->
  initialize_segments (pre ++ [seg_yaml]) =
  let? st := initialize_loop (pre ++ [seg_yaml]) 0 pre ∅ [] in
  let? st := initialize_segment (pre ++ [seg_yaml]) (length pre) seg_yaml st.1 st.2 in
  Ok st.2.
Proof.
  intros Hreal. unfold initialize_segments. rewrite initialize_loop_app.
  destruct (initialize_loop (pre ++ [seg_yaml]) 0 pre ∅ []) as [[seen ret]|]; [simpl|done].
  rewrite Hreal.
  destruct (initialize_segment (pre ++ [seg_yaml]) (length pre) seg_yaml seen ret)
    as [[seen' ret']|]; done.
Qed.

Lemma initialize_segments_final_real_fails pre seg_yaml segs :
  is_rompos_marker seg_yaml = false ->
  initialize_segments (pre ++ [seg_yaml]) <> Ok segs.
Proof.
  intros Hreal. rewrite initialize_segments_snoc by done.
  destruct (initialize_loop (pre ++ [seg_yaml]) 0 pre ∅ []) as [[seen ret]|]; [simpl|done].
  destruct (initialize_segment (pre ++ [seg_yaml]) (length pre) seg_yaml seen ret)
    as [st|] eqn:Hseg; [|done].
  apply initialize_segment_Ok in Hseg as (? & ? & ? & next_yaml & ? & ? & _ & _ & _ & Hi & _).
  apply lookup_lt_Some in Hi. rewrite length_app in Hi. simpl in Hi. lia.
Qed.

Lemma real_entries_cons i seg_yaml todo :
  real_entries i (seg_yaml :: todo) =
  if is_rompos_marker seg_yaml then real_entries (S i) todo
  else (i, seg_yaml) :: real_entries (S i) todo.
Proof.
  unfold real_entries. simpl. rewrite filter_cons. simpl.
  destruct (is_rompos_marker seg_yaml).
  - by rewrite decide_False.
  - by rewrite decide_True.
Qed.

Context {SMS : SegmentModuleSpec SM}.

Lemma initialize_loop_resolved config_segments i todo seen ret st :
  initialize_loop config_segments i todo seen ret = Ok st ->
  exists new, st.2 = ret ++ new /\
              Forall2 (resolved_from config_segments) (real_entries i todo) new.
Proof.
  revert i seen ret. induction todo as [|seg_yaml todo IH]; intros i seen ret; simpl.
  - intros [= <-]. exists []. split; [by rewrite app_nil_r | constructor].
  - rewrite real_entries_cons. destruct (is_rompos_marker seg_yaml); [apply IH|].
    destruct (initialize_segment config_segments i seg_yaml seen ret)
      as [[seen' ret']|] eqn:Hseg; [|done].
    intros Hloop. apply IH in Hloop as (new & Hst & Hnew).
    apply initialize_segment_Ok in Hseg
      as (seg_type & cls & this_start & next_yaml & next_start & segment
          & _ & _ & Hs & Hi & Hn & Hf & Hret).
    simpl in Hret. subst ret'. exists (segment :: new). split.
    + by rewrite Hst, <- app_assoc.
    + constructor; [|done].
      apply from_yaml_range in Hf as [Hstart Hend].
      exists next_yaml, this_start, next_start. repeat split; try done.
      intros a ->. rewrite parse_marker_start in Hn. by injection Hn.
Qed.

(** Every segment of an initialisation that completes has the range
    resolved for its descriptor, in the order of the descriptors. *)
Lemma initialize_segments_resolved config_segments segs :
  initialize_segments config_segments = Ok segs ->
  Forall2 (resolved_from config_segments) (real_entries 0 config_segments) segs.
Proof.
  unfold initialize_segments.
  destruct (initialize_loop config_segments 0 config_segments ∅ []) as [st|] eqn:Hloop;
    [simpl|done].
  intros [= <-]. apply initialize_loop_resolved in Hloop as (new & -> & Hnew). done.
Qed.
End initialize_segments_facts.

Lemma ref_segment_module_spec : SegmentModuleSpec ref_segment_module.
Proof.
  split.
  - intros cls seg_yaml this_start next_start segment. simpl. unfold ref_from_yaml.
    intros [= <-]. done.
  - intros a. reflexivity.
Qed.

(** The example of the specification: the middle segment, "main", gets
    the range from 0x1000 to 0x2000, the end being the marker's address. *)
Example initialize_segments_spec_example :
  exists first main_seg,
    @initialize_segments ref_segment_module spec_example_segments = Ok [first; main_seg] /\
    name main_seg = "main" /\ rom_start main_seg = 0x1000 /\ rom_end main_seg = Some 0x2000 /\
    rom_start first = 0 /\ rom_end first = Some 0x1000.
Proof. eexists _, _. split; [vm_compute; reflexivity|]. repeat split. Qed.

(** C2.  A list made of a single real descriptor, which is both its
    first and its last entry, is not initialised as one segment with an
    unresolved end: once the type and the start of the descriptor are
    resolved, the lookahead [config_segments[i + 1]] raises [IndexError],
    and no segment list is returned. *)
Theorem initialize_segments_open_end {SM : SegmentModule} seg_yaml seg_type cls this_start :
  is_rompos_marker seg_yaml = false ->
  parse_segment_type seg_yaml = Ok seg_type ->
  get_class_for_type seg_type = Ok cls ->
  parse_segment_start seg_yaml = Ok this_start ->
  initialize_segments [seg_yaml] = Raise IndexError /\
  ~ (exists segment,
       initialize_segments [seg_yaml] = Ok [segment] /\
       rom_start segment = this_start /\ rom_end segment = None).
Proof.
  intros Hreal Ht Hc Hs.
  assert (Hraise : initialize_segments [seg_yaml] = Raise IndexError).
  { rewrite (initialize_segments_snoc [] seg_yaml Hreal). simpl.
    by rewrite (initialize_segment_last _ _ _ _ _ seg_type cls this_start). }
  split; [done|]. intros (segment & Hinit & _). congruence.
Qed.

Lemma initialize_segments_open_end_witness :
  @initialize_segments ref_segment_module [seg3 0x1000 "code" "main"] = Raise IndexError.
Proof.
  apply (@initialize_segments_open_end ref_segment_module (seg3 0x1000 "code" "main")
           "code" (mkSegClass "code" true true) 0x1000); reflexivity.
Defined.

(** C9, the claim as stated fails: a list whose final entry is a real
    descriptor, and whose second entry repeats the name of the first,
    ends with the fatal error of line 60 and not with an index error;
    and the empty list, which has no final marker, is initialised. *)
Lemma initialize_segments_earlier_abort :
  let config_segments := [seg3 0 "bin" "a"; seg3 0x10 "bin" "a"; seg3 0x20 "bin" "b"] in
  last config_segments = Some (seg3 0x20 "bin" "b") /\
  is_rompos_marker (seg3 0x20 "bin" "b") = false /\
  @initialize_segments ref_segment_module config_segments
    = Raise (SystemExit "segment name 'a' is not unique") /\
  @initialize_segments ref_segment_module config_segments <> Raise IndexError /\
  @initialize_segments ref_segment_module [] = Ok [].
Proof.
  repeat split; try (vm_compute; reflexivity). vm_compute. discriminate.
Qed.

(** C9, amended.  When the final entry of the descriptor list is a real
    descriptor, initialisation never completes; if the entries before it
    are processed without error and the type and the start of the final
    entry resolve, the failure is the index error of the lookahead
    [config_segments[i + 1]], out of range at the final entry.
    Initialisation completes only for the empty list or for a list whose
    final entry is a boundary marker. *)
Theorem initialize_segments_final_entry {SM : SegmentModule} (config_segments : list yaml) :
  (forall pre seg_yaml,
     config_segments = pre ++ [seg_yaml] -> is_rompos_marker seg_yaml = false ->
     (forall segs, initialize_segments config_segments <> Ok segs) /\
     config_segments !! (length pre + 1)%nat = None /\
     (forall st seg_type cls this_start,
        initialize_loop config_segments 0 pre ∅ [] = Ok st ->
        parse_segment_type seg_yaml = Ok seg_type ->
        get_class_for_type seg_type = Ok cls ->
        parse_segment_start seg_yaml = Ok this_start ->
        initialize_segments config_segments = Raise IndexError)) /\
  (forall segs, initialize_segments config_segments = Ok segs ->
     config_segments = [] \/
     exists m, last config_segments = Some m /\ is_rompos_marker m = true).
Proof.
  split.
  - intros pre seg_yaml -> Hreal. repeat split.
    + intros segs. by apply initialize_segments_final_real_fails.
    + apply lookup_ge_None_2. rewrite length_app. simpl. lia.
    + intros [seen ret] seg_type cls this_start Hpre Ht Hc Hs.
      rewrite initialize_segments_snoc by done. rewrite Hpre. simpl.
      rewrite (initialize_segment_last _ _ _ _ _ seg_type cls this_start); try done.
      rewrite length_app. simpl. lia.
  - intros segs Hinit. destruct (last config_segments) as [m|] eqn:Hlast.
    + right. exists m. split; [done|].
      apply last_Some in Hlast as [pre ->].
      destruct (is_rompos_marker m) eqn:Hm; [done|].
      by apply initialize_segments_final_real_fails in Hinit.
    + left. by apply last_None.
Qed.

Lemma initialize_segments_final_entry_witness :
  @initialize_segments ref_segment_module [marker 0; seg3 0x1000 "code" "main"]
    = Raise IndexError /\
  (forall segs,
     @initialize_segments ref_segment_module [marker 0; seg3 0x1000 "code" "main"] <> Ok segs).
Proof.
  destruct (@initialize_segments_final_entry ref_segment_module
              [marker 0; seg3 0x1000 "code" "main"]) as [Hfinal _].
  destruct (Hfinal [marker 0] (seg3 0x1000 "code" "main") eq_refl eq_refl)
    as (Hnever & _ & Hindex).
  split; [|exact Hnever].
  apply (Hindex (∅, []) "code" (mkSegClass "code" true true) 0x1000); reflexivity.
Defined.

(** ** The checksum gate *)

(** Unfolds the operations of [M] in a goal about a run. *)
Ltac unfold_run := unfold bind, modify, gets, lift, pure, bump.

(** C8.  When the configuration declares a checksum (the string under
    the key [sha1]), the run aborts with the fatal mismatch error, with
    no effect performed and the locals untouched, hence before the
    output directory is made and before any segment is built, scanned or
    split, whenever the declared and the computed checksum differ when
    compared without regard to case; when they agree the run is the rest
    of [main] after the gate. *)
Theorem checksum_gate {SM : SegmentModule} {H : Hashlib}
    documents config rom_bytes pickled all_symbols use_cache declared st :
  load_config [] documents = Ok config ->
  dict_get "sha1" config = Some (YStr declared) ->
  (lower declared <> lower (sha1_hexdigest rom_bytes) ->
   main documents rom_bytes pickled all_symbols use_cache st
   = (Raise (SystemExit (sha1_mismatch_error (lower declared) (sha1_hexdigest rom_bytes))),
      st)) /\
  (lower declared = lower (sha1_hexdigest rom_bytes) ->
   main documents rom_bytes pickled all_symbols use_cache st
   = main_after_gate config rom_bytes pickled all_symbols use_cache st).
Proof.
  intros Hconfig Hsha. rewrite sha1_hexdigest_lower.
  unfold main, bind, lift. rewrite Hconfig. unfold check_sha1. rewrite Hsha.
  split; intros Hcmp.
  - rewrite decide_True by done. reflexivity.
  - rewrite decide_False by (intros ?; done). reflexivity.
Qed.

Lemma checksum_gate_witness :
  let good := [("sha1", YStr "DA39A3EE5E6B4B0D3255BFEF95601890AFD80709")] in
  let bad := [("sha1", YStr "0123456789abcdef0123456789abcdef01234567")] in
  @main ref_segment_module toy_hashlib [good] [] (Ok ∅) [] false initial_locals
    = @main_after_gate ref_segment_module good [] (Ok ∅) [] false initial_locals /\
  @main ref_segment_module toy_hashlib [bad] [] (Ok ∅) [] false initial_locals
    = (Raise (SystemExit
         "sha1 mismatch: expected 0123456789abcdef0123456789abcdef01234567, was da39a3ee5e6b4b0d3255bfef95601890afd80709"),
       initial_locals).
Proof.
  split.
  - apply (@checksum_gate ref_segment_module toy_hashlib
             [[("sha1", YStr "DA39A3EE5E6B4B0D3255BFEF95601890AFD80709")]]
             [("sha1", YStr "DA39A3EE5E6B4B0D3255BFEF95601890AFD80709")]
             [] (Ok ∅) [] false "DA39A3EE5E6B4B0D3255BFEF95601890AFD80709" initial_locals);
      reflexivity.
  - apply (@checksum_gate ref_segment_module toy_hashlib
             [[("sha1", YStr "0123456789abcdef0123456789abcdef01234567")]]
             [("sha1", YStr "0123456789abcdef0123456789abcdef01234567")]
             [] (Ok ∅) [] false "0123456789abcdef0123456789abcdef01234567" initial_locals);
      [reflexivity | reflexivity | vm_compute; discriminate].
Defined.

(** ** Loading the cache *)



(** ** The statistics of the split pass *)

(** On a cache hit the split loop increments the counter of [typ],
    whatever the segment at hand is. *)
Lemma split_segment_hit segment st t n :
  cache_hit segment (cache_store st) = true ->
  typ st = Some t -> seg_cached st !! t = Some n ->
  split_segment true segment st = (Ok tt, set_seg_cached (<[t := n + 1]> (seg_cached st)) st).
Proof.
  intros Hhit Ht Hn. unfold split_segment; unfold_run.
  unfold cache_hit in Hhit. rewrite Hhit, Ht, Hn. reflexivity.
Qed.

(** ** Invalidation of the cache *)





Lemma split_segment_miss segment st :
  cache_hit segment (cache_store st) = false ->
  split_segment true segment st =
  (Ok tt,
   (if should_split segment then add_event (Split (unique_id segment)) else fun st => st)
     (set_cache_store (<[unique_id segment := cache segment]> (cache_store st)) st)).
Proof.
  intros Hmiss. unfold cache_hit in Hmiss.
  unfold split_segment; unfold_run. rewrite Hmiss.
  by destruct (should_split segment).
Qed.


Lemma same_identity_lists segments segments' store :
  Forall2 same_identity segments segments' ->
  unique_id <$> segments' = unique_id <$> segments /\
  cache <$> segments' = cache <$> segments /\
  split_events segments' = split_events segments /\
  store_with store segments' = store_with store segments.
Proof.
  intros Hsame. revert store.
  induction Hsame as [|s s' l l' (Hid & Hfp & Hsp) _ IH]; intros store; [done|].
  destruct (IH (<[unique_id s := cache s]> store)) as (I1 & I2 & I3 & I4).
  split_and!.
  - rewrite !fmap_cons. by rewrite Hid, I1.
  - rewrite !fmap_cons. by rewrite Hfp, I2.
  - simpl. by rewrite Hid, Hsp, I3.
  - unfold store_with in *. simpl. by rewrite Hid, Hfp, I4.
Qed.





(** ** The variable [typ] *)

(** However the scan of a segment ends, [typ] is then its bucket. *)
Lemma scan_segment_typ use_cache all_symbols all_segments segment st r st' :
  scan_segment use_cache all_symbols all_segments segment st = (r, st') ->
  typ st' = Some (bucket segment).
Proof.
  unfold scan_segment; unfold_run. simpl.
  repeat (case_match; simpl in *; simplify_eq); intros; simplify_eq; done.
Qed.

Lemma split_segment_typ use_cache segment st r st' :
  split_segment use_cache segment st = (r, st') -> typ st' = typ st.
Proof.
  unfold split_segment; unfold_run. simpl.
  repeat (case_match; simpl in *; simplify_eq); intros; simplify_eq; done.
Qed.

(** The scan of a segment leaves every hit counter at 0 if it was. *)
Lemma scan_segment_cached use_cache all_symbols all_segments segment st r st' :
  scan_segment use_cache all_symbols all_segments segment st = (r, st') ->
  (forall k n, seg_cached st !! k = Some n -> n = 0) ->
  forall k n, seg_cached st' !! k = Some n -> n = 0.
Proof.
  unfold scan_segment; unfold_run. simpl.
  repeat (case_match; simpl in *; simplify_eq); intros; simplify_eq; simpl in *;
    try (by eauto);
    match goal with
    | H : <[_ := _]> _ !! _ = Some _ |- _ =>
        rewrite lookup_insert in H; case_decide; simplify_eq; by eauto
    end.
Qed.

(** The split of a segment changes no hit counter but that of [typ]. *)
Lemma split_segment_cached use_cache segment st r st' k :
  split_segment use_cache segment st = (r, st') ->
  typ st <> Some k -> seg_cached st' !! k = seg_cached st !! k.
Proof.
  unfold split_segment; unfold_run. simpl.
  repeat (case_match; simpl in *; simplify_eq); intros; simplify_eq; simpl in *;
    try done; rewrite lookup_insert_ne; congruence.
Qed.

Lemma scan_pass_typ use_cache all_symbols all_segments segments st out st' :
  for_each (scan_segment use_cache all_symbols all_segments) segments st = (Ok out, st') ->
  (forall k n, seg_cached st !! k = Some n -> n = 0) ->
  typ st' = from_option (fun segment => Some (bucket segment)) (typ st) (last segments) /\
  (forall k n, seg_cached st' !! k = Some n -> n = 0).
Proof.
  revert st out. induction segments as [|segment segments IH]; intros st out.
  - simpl. unfold pure. by intros [= <- <-].
  - cbn [for_each]. unfold bind at 1.
    destruct (scan_segment use_cache all_symbols all_segments segment st)
      as [[segment'|e] st1] eqn:Hscan; [|done].
    unfold bind at 1.
    destruct (for_each (scan_segment use_cache all_symbols all_segments) segments st1)
      as [[out'|e] st2] eqn:Hrest; [|done].
    unfold pure. intros [= <- <-] Hzero.
    pose proof (scan_segment_typ _ _ _ _ _ _ _ Hscan) as Htyp.
    pose proof (scan_segment_cached _ _ _ _ _ _ _ Hscan Hzero) as Hzero1.
    destruct (IH _ _ Hrest Hzero1) as [Htyp2 Hzero2]. split; [|done].
    rewrite Htyp2, Htyp, last_cons. by destruct (last segments).
Qed.

Lemma split_pass_cached use_cache segments st r st' k :
  for_each (split_segment use_cache) segments st = (r, st') ->
  typ st <> Some k -> seg_cached st' !! k = seg_cached st !! k.
Proof.
  revert st r. induction segments as [|segment segments IH]; intros st r.
  - simpl. unfold pure. by intros [= <- <-].
  - cbn [for_each]. unfold bind at 1.
    destruct (split_segment use_cache segment st) as [[[]|e] st1] eqn:Hsplit.
    + unfold bind at 1.
      destruct (for_each (split_segment use_cache) segments st1) as [[out'|e] st2] eqn:Hrest;
        unfold pure; intros [= <- <-] Htyp;
        (rewrite (IH _ _ Hrest) by (by rewrite (split_segment_typ _ _ _ _ _ Hsplit)));
        by apply (split_segment_cached _ _ _ _ _ _ Hsplit).
    + intros [= <- <-] Htyp. by apply (split_segment_cached _ _ _ _ _ _ Hsplit).
Qed.

(** C4.  With a first segment "boot" of type "code" whose fingerprint is
    in the cache and a second segment "tables" of type "data" whose is
    not, the one cache hit of the split pass is that of "boot" (only
    "tables" is scanned and split), but it is counted under "data", the
    bucket of the segment the scan loop ended on: the hit counter of
    "code" stays 0 and that of "data" becomes 1.  In every run of the
    two passes, only the bucket of the last segment of the list can have
    a hit counter other than 0. *)
Theorem cache_hit_counted_in_wrong_bucket :
  (let outcome := @main_after_gate ref_segment_module stats_config [] (Ok stats_stored) []
               true initial_locals in
  (exists boot tables,
     outcome.1 = Ok [boot; tables] /\
     bucket boot = "code" /\ bucket tables = "data" /\
     cache_hit boot stats_stored = true /\ cache_hit tables stats_stored = false) /\
  take 3 (trace outcome.2) = [Mkdir; Scan "data_tables"; Split "data_tables"] /\
  seg_cached outcome.2 !! "code" = Some 0 /\
   seg_cached outcome.2 !! "data" = Some 1) /\
  (forall use_cache all_symbols all_segments final st out st' k n,
     (forall k n, seg_cached st !! k = Some n -> n = 0) ->
     last all_segments = Some final ->
     scan_and_split use_cache all_symbols all_segments st = (Ok out, st') ->
     k <> bucket final -> seg_cached st' !! k = Some n -> n = 0).
Proof.
  split.
  - split; [|repeat split; vm_compute; reflexivity].
    eexists _, _. split; [vm_compute; reflexivity|].
    repeat split; vm_compute; reflexivity.
  - intros use_cache all_symbols all_segments final st out st' k n Hzero Hlast.
    unfold scan_and_split. unfold bind at 1.
    destruct (for_each (scan_segment use_cache all_symbols all_segments) all_segments st)
      as [[scanned|e] st1] eqn:Hscan; [|done].
    unfold bind at 1.
    destruct (for_each (split_segment use_cache) scanned st1) as [[out'|e] st2] eqn:Hsplit;
      [|done].
    unfold pure. intros [= <- <-] Hk.
    destruct (scan_pass_typ _ _ _ _ _ _ _ Hscan Hzero) as [Htyp Hzero1].
    rewrite Hlast in Htyp. simpl in Htyp.
    rewrite (split_pass_cached _ _ _ _ _ k Hsplit) by (rewrite Htyp; congruence).
    apply Hzero1.
Qed.


(* ================================================================== *)
(** * Further properties of the driver *)

(** ** [fmt_size]: the number shown *)

(** X1.  In the units KB and MB the number shown is never 0, and in KB it
    is at most 1000; a size of at most 1000, negative sizes included, is
    shown as it is, in B. *)
Theorem fmt_size_number (n : Z) :
  (n <= 1000 -> fmt_size n = str n +:+ " B") /\
  (1000 < n <= 1000000 ->
   exists q, 1 <= q <= 1000 /\ q = n `div` 1000 /\ fmt_size n = str q +:+ " KB") /\
  (1000000 < n ->
   exists q, 1 <= q /\ q = n `div` 1000000 /\ fmt_size n = str q +:+ " MB").
Proof.
  split_and!; intros Hn.
  - by apply fmt_size_B.
  - exists (n `div` 1000). split_and!; [| |done|by apply fmt_size_KB].
    + apply Z.div_le_lower_bound; lia.
    + apply Z.div_le_upper_bound; lia.
  - exists (n `div` 1000000). split_and!; [|done|by apply fmt_size_MB].
    apply Z.div_le_lower_bound; lia.
Qed.

(** ** [merge_configs]: keys *)

Lemma dict_set_fresh k v (d : dict) : k ∉ d.*1 -> dict_set k v d = d ++ [(k, v)].
Proof.
  induction d as [|[k' v'] d IH]; simpl; [done|].
  intros [Hne Hk]%not_elem_of_cons. rewrite decide_False by done. by rewrite IH.
Qed.

Lemma dict_set_keys k v (d : dict) :
  (dict_set k v d).*1 = if decide (k ∈ d.*1) then d.*1 else d.*1 ++ [k].
Proof.
  induction d as [|[k' v'] d IH]; [done|].
  cbn [dict_set]. rewrite (fmap_cons fst (k', v') d). cbn [fst].
  destruct (decide (k = k')) as [->|Hne].
  - rewrite fmap_cons. cbn [fst]. rewrite decide_True by apply list_elem_of_here. done.
  - rewrite fmap_cons. cbn [fst]. rewrite IH.
    destruct (decide (k ∈ d.*1)) as [Hin|Hnin].
    + rewrite decide_True by (by apply list_elem_of_further). done.
    + rewrite decide_False by (by apply not_elem_of_cons). done.
Qed.

Lemma filter_ext_in {A : Type} (P Q : A -> Prop)
    `{!forall x, Decision (P x)} `{!forall x, Decision (Q x)} (l : list A) :
  (forall x, x ∈ l -> P x <-> Q x) -> filter P l = filter Q l.
Proof.
  induction l as [|x l IH]; intros Hext; [done|].
  rewrite !filter_cons.
  rewrite IH by (intros y Hy; apply Hext; by apply list_elem_of_further).
  destruct (decide (P x)) as [HP|HP], (decide (Q x)) as [HQ|HQ]; try done;
    exfalso; apply (Hext x (list_elem_of_here _ _)) in HP || apply HP, (Hext x); try done;
    apply list_elem_of_here.
Qed.

(** X2.  Two documents without a common key (each with distinct keys)
    merge, without error, to the first followed by the second; so the
    configuration loaded from a single document is that document. *)
Theorem merge_configs_disjoint main_config additional_config :
  NoDup (main_config ++ additional_config).*1 ->
  merge_configs main_config additional_config = Ok (main_config ++ additional_config) /\
  (main_config = [] -> load_config [] [additional_config] = Ok additional_config).
Proof.
  intros Hnd.
  assert (Hmerge : merge_configs main_config additional_config
                   = Ok (main_config ++ additional_config)).
  { revert main_config Hnd.
    induction additional_config as [|[curkey new] todo IH]; intros main Hnd.
    - by rewrite merge_configs_nil, app_nil_r.
    - rewrite fmap_app, fmap_cons in Hnd. simpl in Hnd.
      assert (Hfresh : curkey ∉ main.*1).
      { apply NoDup_app in Hnd as (_ & Hdisj & _). intros Hin.
        apply (Hdisj _ Hin), list_elem_of_here. }
      rewrite merge_configs_cons.
      rewrite (proj2 (dict_get_None curkey main) Hfresh).
      rewrite dict_set_fresh by done. rewrite IH.
      + by rewrite <- app_assoc.
      + rewrite <- app_assoc. simpl. by rewrite fmap_app, fmap_cons.
  }
  split; [done|]. intros ->. simpl. simpl in Hmerge. by rewrite Hmerge.
Qed.

Lemma merge_configs_disjoint_witness :
  merge_configs [("sha1", YStr "da39")] spec_main_config
  = Ok (("sha1", YStr "da39") :: spec_main_config).
Proof.
  apply (merge_configs_disjoint [("sha1", YStr "da39")] spec_main_config).
  apply (bool_decide_unpack _). vm_compute. exact I.
Defined.

(** X3.  A merge that succeeds drops no key and moves none: the keys of
    the result are the keys of the first document, in their order,
    followed by the keys of the second that the first does not have, in
    their order. *)
Theorem merge_configs_keys main_config additional_config merged :
  NoDup additional_config.*1 ->
  merge_configs main_config additional_config = Ok merged ->
  merged.*1 = main_config.*1 ++ filter (fun k => k ∉ main_config.*1) additional_config.*1.
Proof.
  revert main_config.
  induction additional_config as [|[curkey new] todo IH]; intros main Hnd.
  - rewrite merge_configs_nil. intros [= <-]. simpl. by rewrite app_nil_r.
  - rewrite fmap_cons in Hnd. simpl in Hnd. apply NoDup_cons in Hnd as [Hfresh Hnd].
    assert (Hstep : forall x,
      merge_configs (dict_set curkey x main) todo = Ok merged ->
      merged.*1 = main.*1 ++ filter (fun k => k ∉ main.*1) ((curkey, new) :: todo).*1).
    { intros x Hm. rewrite (IH _ Hnd Hm), dict_set_keys, fmap_cons, filter_cons. simpl.
      assert (Hfilter : forall keys : list string,
        curkey ∉ todo.*1 ->
        filter (fun k => k ∉ keys ++ [curkey]) todo.*1 = filter (fun k => k ∉ keys) todo.*1).
      { intros keys Hc. apply filter_ext_in. intros k Hk.
        rewrite not_elem_of_app, list_elem_of_singleton.
        split; [tauto|]. intros Hnot. split; [done|]. intros ->. done. }
      destruct (decide (curkey ∈ main.*1)) as [Hin|Hnin].
      - rewrite decide_False by (intros Hnot; done). done.
      - rewrite decide_True by done. rewrite Hfilter by done.
        by rewrite <- app_assoc. }
    rewrite merge_configs_cons.
    destruct (dict_get curkey main) as [old|]; [|apply Hstep].
    destruct (decide (type_of old <> type_of new)); [done|].
    destruct old; try apply Hstep.
    + destruct new; try done. apply Hstep.
    + destruct (merge_into d new); [apply Hstep|done].
Qed.

Lemma merge_configs_keys_witness :
  exists merged,
    merge_configs spec_main_config spec_additional_config = Ok merged /\
    merged.*1 = ["segments"; "options"].
Proof.
  eexists. split; [vm_compute; reflexivity|].
  erewrite (merge_configs_keys spec_main_config spec_additional_config);
    [reflexivity| |vm_compute; reflexivity].
  apply (bool_decide_unpack _). vm_compute. exact I.
Defined.

(** ** [initialize_segments]: what the list of segments is *)

Section initialize_segments_more.
Context {SM : SegmentModule}.

Lemma real_entries_app i todo1 todo2 :
  real_entries i (todo1 ++ todo2)
  = real_entries i todo1 ++ real_entries (i + length todo1) todo2.
Proof.
  revert i. induction todo1 as [|seg_yaml todo1 IH]; intros i.
  - simpl. by rewrite Nat.add_0_r.
  - rewrite <- app_comm_cons, !real_entries_cons, IH. simpl.
    rewrite Nat.add_succ_r. by destruct (is_rompos_marker seg_yaml).
Qed.

Lemma real_entries_descriptors i todo :
  snd <$> real_entries i todo
  = filter (fun seg_yaml => is_rompos_marker seg_yaml = false) todo.
Proof.
  revert i. induction todo as [|seg_yaml todo IH]; intros i; [done|].
  rewrite real_entries_cons, filter_cons.
  destruct (is_rompos_marker seg_yaml).
  - rewrite decide_False by done. apply IH.
  - rewrite decide_True by done. rewrite fmap_cons. simpl. by rewrite IH.
Qed.

(** What one pass of the loop does to its state. *)
Lemma initialize_segment_state config_segments i seg_yaml seen ret st :
  initialize_segment config_segments i seg_yaml seen ret = Ok st ->
  exists cls this_start next_start segment,
    from_yaml cls seg_yaml this_start next_start = Ok segment /\
    st.2 = ret ++ [segment] /\
    (if require_unique_name segment
     then (name segment ∉ seen) /\ st.1 = {[name segment]} ∪ seen
     else st.1 = seen).
Proof.
  unfold initialize_segment.
  destruct (parse_segment_type seg_yaml) as [seg_type|]; [simpl|done].
  destruct (get_class_for_type seg_type) as [cls|]; [simpl|done].
  destruct (parse_segment_start seg_yaml) as [this_start|]; [simpl|done].
  destruct (py_index config_segments (i + 1)) as [next_yaml|]; [simpl|done].
  destruct (parse_segment_start next_yaml) as [next_start|]; [simpl|done].
  destruct (from_yaml cls seg_yaml this_start next_start) as [segment|] eqn:Hf; [simpl|done].
  intros Hst. exists cls, this_start, next_start, segment. split; [done|].
  destruct (require_unique_name segment); simpl in Hst.
  - destruct (decide (name segment ∈ seen)); simpl in Hst; [done|].
    by injection Hst as <-.
  - by injection Hst as <-.
Qed.

Lemma initialize_loop_names config_segments i todo seen ret st :
  initialize_loop config_segments i todo seen ret = Ok st ->
  names_seen seen ret -> names_seen st.1 st.2.
Proof.
  revert i seen ret. induction todo as [|seg_yaml todo IH]; intros i seen ret; simpl.
  - by intros [= <-].
  - destruct (is_rompos_marker seg_yaml); [apply IH|].
    destruct (initialize_segment config_segments i seg_yaml seen ret)
      as [[seen' ret']|] eqn:Hseg; [|done].
    intros Hloop [Hseen Hnd]. apply (IH _ _ _ Hloop).
    apply initialize_segment_state in Hseg
      as (cls & this_start & next_start & segment & _ & Hret & Huniq).
    simpl in Hret, Huniq. subst ret'. split.
    + intros s [Hs| ->%list_elem_of_singleton]%elem_of_app Hreq.
      * specialize (Hseen s Hs Hreq).
        destruct (require_unique_name segment); [destruct Huniq as [_ ->]|subst seen'];
          set_solver.
      * rewrite Hreq in Huniq. destruct Huniq as [_ ->]. set_solver.
    + rewrite filter_app, fmap_app, filter_cons, filter_nil.
      destruct (require_unique_name segment) eqn:Hreq.
      * rewrite decide_True by done. destruct Huniq as [Hnew _].
        apply NoDup_app. split_and!; [done| |apply NoDup_singleton].
        intros nm (s & -> & [Hs_req Hs]%list_elem_of_filter)%list_elem_of_fmap Hnm.
        apply list_elem_of_singleton in Hnm. apply Hnew. rewrite <- Hnm. by apply Hseen.
      * rewrite decide_False by (by intros ?). by rewrite app_nil_r.
Qed.

Lemma initialize_loop_built config_segments i todo seen ret st :
  initialize_loop config_segments i todo seen ret = Ok st ->
  exists new, st.2 = ret ++ new /\
    Forall2 (fun seg_yaml segment => exists cls this_start next_start,
               from_yaml cls seg_yaml this_start next_start = Ok segment)
      (filter (fun seg_yaml => is_rompos_marker seg_yaml = false) todo) new.
Proof.
  revert i seen ret. induction todo as [|seg_yaml todo IH]; intros i seen ret; simpl.
  - intros [= <-]. exists []. split; [by rewrite app_nil_r | constructor].
  - rewrite filter_cons. destruct (is_rompos_marker seg_yaml).
    + rewrite decide_False by done. apply IH.
    + rewrite decide_True by done.
      destruct (initialize_segment config_segments i seg_yaml seen ret)
        as [[seen' ret']|] eqn:Hseg; [|done].
      intros Hloop. apply IH in Hloop as (new & Hst & Hnew).
      apply initialize_segment_state in Hseg
        as (cls & this_start & next_start & segment & Hf & Hret & _).
      simpl in Hret. subst ret'. exists (segment :: new). split.
      * by rewrite Hst, <- app_assoc.
      * constructor; [|done]. by exists cls, this_start, next_start.
Qed.

(** X4.  When initialisation completes, the segments are, in order, the
    ones built by [from_yaml] from the descriptors that are not markers:
    a marker never becomes a segment, no descriptor is skipped or built
    twice. *)
Theorem initialize_segments_one_per_descriptor config_segments segs :
  initialize_segments config_segments = Ok segs ->
  Forall2 (fun seg_yaml segment => exists cls this_start next_start,
             from_yaml cls seg_yaml this_start next_start = Ok segment)
    (filter (fun seg_yaml => is_rompos_marker seg_yaml = false) config_segments) segs /\
  length segs
  = length (filter (fun seg_yaml => is_rompos_marker seg_yaml = false) config_segments).
Proof.
  unfold initialize_segments.
  destruct (initialize_loop config_segments 0 config_segments ∅ []) as [st|] eqn:Hloop;
    [simpl|done].
  intros [= <-]. apply initialize_loop_built in Hloop as (new & -> & Hnew).
  split; [done|]. symmetry. by eapply Forall2_length.
Qed.

(** X5.  When initialisation completes, no two of the segments that
    require a unique name have the same name. *)
Theorem initialize_segments_unique_names config_segments segs :
  initialize_segments config_segments = Ok segs ->
  NoDup (name <$> filter (fun segment => require_unique_name segment = true) segs).
Proof.
  unfold initialize_segments.
  destruct (initialize_loop config_segments 0 config_segments ∅ []) as [st|] eqn:Hloop;
    [simpl|done].
  intros [= <-]. apply (initialize_loop_names _ _ _ _ _ _ Hloop).
  split; [by intros s Hs%elem_of_nil | apply NoDup_nil_2].
Qed.

Context {SMS : SegmentModuleSpec SM}.

(** X6.  When initialisation completes, the segment of a descriptor ends
    where the entry after the descriptor starts; when that entry is a
    descriptor too, its segment, the next of the list, starts there: two
    descriptors in a row give contiguous segments. *)
Theorem initialize_segments_contiguous pre seg_yaml next_yaml post segs :
  initialize_segments (pre ++ seg_yaml :: next_yaml :: post) = Ok segs ->
  is_rompos_marker seg_yaml = false ->
  exists segment next_start,
    segs !! length (filter (fun y => is_rompos_marker y = false) pre) = Some segment /\
    parse_segment_start next_yaml = Ok next_start /\
    rom_end segment = Some next_start /\
    (is_rompos_marker next_yaml = false ->
     exists next_segment,
       segs !! S (length (filter (fun y => is_rompos_marker y = false) pre))
         = Some next_segment /\
       rom_start next_segment = next_start).
Proof.
  intros Hinit Hreal. apply initialize_segments_resolved in Hinit.
  rewrite real_entries_app, !real_entries_cons, Hreal in Hinit. simpl in Hinit.
  apply Forall2_app_inv_l in Hinit as (before & rest & Hbefore & Hrest & ->).
  apply Forall2_cons_inv_l in Hrest as (segment & rest' & Hseg & Hrest & ->).
  assert (Hlen : length before = length (filter (fun y => is_rompos_marker y = false) pre)).
  { rewrite <- (Forall2_length _ _ _ Hbefore), <- (real_entries_descriptors 0).
    by rewrite length_fmap. }
  destruct Hseg as (next & this_start & next_start & Hnext & _ & Hparse & _ & _ & Hend).
  simpl in Hnext.
  rewrite lookup_app_r, Nat.add_comm, Nat.add_sub in Hnext by lia. simpl in Hnext.
  injection Hnext as <-.
  exists segment, next_start. split_and!; try done.
  - rewrite <- Hlen. by rewrite lookup_app_r, Nat.sub_diag by lia.
  - intros Hnext_real. rewrite Hnext_real in Hrest.
    apply Forall2_cons_inv_l in Hrest as (next_segment & rest'' & Hseg' & _ & ->).
    exists next_segment. split.
    + rewrite <- Hlen. rewrite lookup_app_r by lia.
      by replace (S (length before) - length before)%nat with 1%nat by lia.
    + destruct Hseg' as (_ & this_start' & _ & _ & Hparse' & _ & _ & Hstart & _).
      simpl in Hparse'. congruence.
Qed.
End initialize_segments_more.

Lemma initialize_segments_one_per_descriptor_witness :
  exists segs,
    @initialize_segments ref_segment_module spec_example_segments = Ok segs /\
    length segs = 2%nat.
Proof.
  destruct initialize_segments_spec_example as (first & main_seg & Hinit & _).
  exists [first; main_seg]. split; [exact Hinit|].
  destruct (@initialize_segments_one_per_descriptor ref_segment_module
              spec_example_segments [first; main_seg] Hinit) as [_ Hlen].
  exact Hlen.
Defined.

Lemma initialize_segments_unique_names_witness :
  exists segs,
    @initialize_segments ref_segment_module spec_example_segments = Ok segs /\
    NoDup (name <$> filter (fun segment => require_unique_name segment = true) segs).
Proof.
  destruct initialize_segments_spec_example as (first & main_seg & Hinit & _).
  exists [first; main_seg]. split; [exact Hinit|].
  exact (@initialize_segments_unique_names ref_segment_module
           spec_example_segments [first; main_seg] Hinit).
Defined.

Lemma initialize_segments_contiguous_witness :
  exists segs first,
    @initialize_segments ref_segment_module spec_example_segments = Ok segs /\
    segs !! 0%nat = Some first /\ rom_end first = Some 0x1000.
Proof.
  destruct initialize_segments_spec_example as (first & main_seg & Hinit & _).
  destruct (@initialize_segments_contiguous ref_segment_module ref_segment_module_spec
              [] (YDict [("start", YInt 0); ("type", YStr "bin")])
              (YDict [("start", YInt 0x1000); ("type", YStr "code"); ("name", YStr "main")])
              [marker 0x2000] [first; main_seg] Hinit eq_refl)
    as (segment & next_start & Hseg & Hparse & Hend & _).
  exists [first; main_seg], segment. split; [exact Hinit|].
  split; [exact Hseg|]. simpl in Hparse. injection Hparse as <-. exact Hend.
Defined.

(** ** [get_segment_symbols]: symbols with a ROM address, symbols that
    are not isolated *)

(** X7.  A symbol of the table with a ROM address other than 0 is
    attributed by that address alone: it is in the owned set of a
    segment, under its vram address, when the ROM range of the segment
    contains the address, and in its external set otherwise, whatever
    the vram ranges are. *)
Theorem symbol_with_rom_attribution all_symbols all_segments segment symbol a :
  symbol ∈ all_symbols ->
  rom symbol = Some a -> a <> 0 ->
  (contains_rom segment a = true ->
   symbol ∈ symbols_at (get_segment_symbols all_symbols segment all_segments).1
              (vram_start symbol) /\
   forall k, symbol ∉ symbols_at (get_segment_symbols all_symbols segment all_segments).2 k) /\
  (contains_rom segment a = false ->
   symbol ∈ symbols_at (get_segment_symbols all_symbols segment all_segments).2
              (vram_start symbol) /\
   forall k, symbol ∉ symbols_at (get_segment_symbols all_symbols segment all_segments).1 k).
Proof.
  intros Hin Hrom Ha.
  assert (Hown : owns segment all_segments symbol = contains_rom segment a).
  { unfold owns, rom_truthy, rom_and_contains. rewrite Hrom.
    rewrite (proj2 (Z.eqb_neq a 0) Ha). simpl. by rewrite andb_false_r. }
  split; intros Hc; (split; [|intros k]).
  - destruct (get_segment_symbols_at all_symbols segment all_segments (vram_start symbol))
      as [-> _].
    apply list_elem_of_filter. by rewrite Hown.
  - destruct (get_segment_symbols_at all_symbols segment all_segments k) as [_ ->].
    intros [[Hf _] _]%list_elem_of_filter. congruence.
  - destruct (get_segment_symbols_at all_symbols segment all_segments (vram_start symbol))
      as [_ ->].
    apply list_elem_of_filter. by rewrite Hown.
  - destruct (get_segment_symbols_at all_symbols segment all_segments k) as [-> _].
    intros [[Hf _] _]%list_elem_of_filter. congruence.
Qed.

Lemma symbol_with_rom_attribution_witness :
  let symbol := {| sym_name := "boot_entry"; vram_start := 0x80000310; rom := Some 0x1040 |} in
  symbol ∈ symbols_at (get_segment_symbols [symbol] demo_boot [demo_boot; demo_main]).1
             (vram_start symbol).
Proof.
  intros symbol.
  assert (Hin : symbol ∈ [symbol]) by apply list_elem_of_here.
  destruct (symbol_with_rom_attribution [symbol] [demo_boot; demo_main] demo_boot symbol
              0x1040 Hin eq_refl) as [Howned _]; [discriminate|].
  apply Howned. reflexivity.
Defined.

(** X8.  A symbol of the table whose ROM address is absent or 0, and
    whose vram address is not contained by exactly one segment, is in
    the external set of every segment and in no owned set; a ROM address
    of 0 counts as no address, also for a segment whose ROM range
    contains 0. *)
Theorem symbol_not_isolated_external all_symbols all_segments segment symbol :
  symbol ∈ all_symbols ->
  rom symbol = None \/ rom symbol = Some 0 ->
  is_symbol_isolated symbol all_segments = false ->
  symbol ∈ symbols_at (get_segment_symbols all_symbols segment all_segments).2
             (vram_start symbol) /\
  forall k, symbol ∉ symbols_at (get_segment_symbols all_symbols segment all_segments).1 k.
Proof.
  intros Hin Hrom Hiso.
  assert (Hown : owns segment all_segments symbol = false).
  { unfold owns. rewrite Hiso. by destruct Hrom as [-> | ->]. }
  split; [|intros k].
  - destruct (get_segment_symbols_at all_symbols segment all_segments (vram_start symbol))
      as [_ ->].
    by apply list_elem_of_filter.
  - destruct (get_segment_symbols_at all_symbols segment all_segments k) as [-> _].
    intros [[Hf _] _]%list_elem_of_filter. congruence.
Qed.

Lemma symbol_not_isolated_external_witness :
  let header := demo_segment "header" 0 0x1000 0x80000000 0x80000100 in
  let symbol := {| sym_name := "rom_start"; vram_start := 0x90000000; rom := Some 0 |} in
  contains_rom header 0 = true /\
  symbol ∈ symbols_at (get_segment_symbols [symbol] header [header; demo_boot]).2
             (vram_start symbol).
Proof.
  intros header symbol. split; [reflexivity|].
  assert (Hin : symbol ∈ [symbol]) by apply list_elem_of_here.
  apply (symbol_not_isolated_external [symbol] [header; demo_boot] header symbol Hin);
    [by right | reflexivity].
Defined.

(** ** The two passes: bookkeeping *)

#[local] Set Warnings "-clear-no-such-hyp".

Lemma tally_insert (counter : gmap string Z) t x k :
  tally (<[t := x]> counter) k = if decide (k = t) then x else tally counter k.
Proof.
  unfold tally. rewrite lookup_insert. destruct (decide (t = k)) as [->|Hne].
  - by rewrite decide_True.
  - by rewrite decide_False by congruence.
Qed.

(** The scan of one segment, whatever the cache holds. *)
Lemma scan_segment_step use_cache all_symbols all_segments segment st :
  counters_dom st ->
  exists st',
    scan_segment use_cache all_symbols all_segments segment st
    = (Ok (scanned_segment use_cache (cache_store st) all_symbols all_segments segment), st') /\
    counters_dom st' /\
    cache_store st' = cache_store st /\
    typ st' = Some (bucket segment) /\
    is_Some (seg_cached st' !! bucket segment) /\
    trace st' = trace st ++
      (if is_scanned use_cache (cache_store st) segment
       then [Scan (unique_id segment)] else []) /\
    processed_segments st' = processed_segments st ++
      (if is_scanned use_cache (cache_store st) segment
       then [scanned_segment use_cache (cache_store st) all_symbols all_segments segment]
       else []) /\
    (forall k, tally (seg_sizes st') k = tally (seg_sizes st) k +
       if decide (bucket segment = k) then default 0 (size segment) else 0) /\
    (forall k, tally (seg_split st') k = tally (seg_split st) k +
       if decide (bucket segment = k)
       then (if is_scanned use_cache (cache_store st) segment then 1 else 0) else 0) /\
    (forall k, tally (seg_cached st') k = tally (seg_cached st) k) /\
    (forall k, is_Some (seg_sizes st' !! k) <->
               is_Some (seg_sizes st !! k) \/ k = bucket segment).
Proof.
  intros Hdom.
  unfold scanned_segment, is_scanned, scan_segment; unfold_run. simpl.
  set (t := bucket segment).
  destruct (decide (seg_sizes st !! t = None)) as [Hnew|Hold]; simpl.
  - assert (Hsplit : seg_split st !! t = None).
    { destruct (Hdom t) as [[_ H1] _]. destruct (seg_split st !! t) eqn:E; [|done].
      destruct H1 as [? ?]; [eauto|congruence]. }
    assert (Hcached : seg_cached st !! t = None).
    { destruct (Hdom t) as [_ [_ H1]]. destruct (seg_cached st !! t) eqn:E; [|done].
      destruct H1 as [? ?]; [eauto|congruence]. }
    rewrite lookup_insert_eq. simpl.
    destruct (should_scan segment); simpl;
      [destruct (use_cache && cache_hit segment (cache_store st)); simpl;
       rewrite ?lookup_insert_eq; simpl|];
      (eexists; split; [reflexivity|]; simpl; split_and!;
       [ intros k; specialize (Hdom k); simpl; rewrite !lookup_insert_is_Some'; tauto
       | done | done | by rewrite lookup_insert_eq
       | destruct (needs_symbols segment); by rewrite ?app_nil_r
       | destruct (needs_symbols segment); by rewrite ?app_nil_r
       | intros k; rewrite !tally_insert; repeat case_decide; subst; try congruence;
         unfold tally; rewrite ?Hnew; simpl; lia
       | intros k; rewrite !tally_insert; repeat case_decide; subst; try congruence;
         unfold tally; rewrite ?Hsplit; simpl; lia
       | intros k; rewrite !tally_insert; repeat case_decide; subst; try congruence;
         unfold tally; rewrite ?Hcached; simpl; lia
       | intros k; rewrite !lookup_insert_is_Some'; naive_solver ]).
  - destruct (seg_sizes st !! t) as [v|] eqn:Hv; [|done]. simpl.
    assert (Hkeys : is_Some (seg_split st !! t) /\ is_Some (seg_cached st !! t)).
    { destruct (Hdom t) as [[H1 _] [H2 _]]. rewrite Hv in H1, H2. split; eauto. }
    destruct Hkeys as [[w Hw] Hc].
    destruct (should_scan segment); simpl;
      [destruct (use_cache && cache_hit segment (cache_store st)); simpl;
       rewrite ?Hw; simpl|];
      (eexists; split; [reflexivity|]; simpl; split_and!;
       [ intros k; specialize (Hdom k); simpl; rewrite ?lookup_insert_is_Some';
         destruct (decide (t = k)) as [<-|]; [rewrite Hv, Hw in *|]; naive_solver
       | done | done | done
       | destruct (needs_symbols segment); by rewrite ?app_nil_r
       | destruct (needs_symbols segment); by rewrite ?app_nil_r
       | intros k; rewrite ?tally_insert; repeat case_decide; subst; try congruence;
         unfold tally; rewrite ?Hv; simpl; lia
       | intros k; rewrite ?tally_insert; repeat case_decide; subst; try congruence;
         unfold tally; rewrite ?Hw; simpl; lia
       | done
       | intros k; rewrite ?lookup_insert_is_Some';
         destruct (decide (t = k)) as [<-|]; [rewrite Hv|]; naive_solver ]).
Qed.

(** The scan loop, whatever the cache holds. *)
Lemma scan_pass_run use_cache all_symbols all_segments segments st :
  counters_dom st ->
  exists st',
    for_each (scan_segment use_cache all_symbols all_segments) segments st
    = (Ok (scanned_segment use_cache (cache_store st) all_symbols all_segments <$> segments),
       st') /\
    counters_dom st' /\
    cache_store st' = cache_store st /\
    typ st' = from_option (fun segment => Some (bucket segment)) (typ st) (last segments) /\
    trace st' = trace st ++
      ((fun segment => Scan (unique_id segment)) <$>
       filter (fun segment => is_scanned use_cache (cache_store st) segment = true) segments) /\
    processed_segments st' = processed_segments st ++
      (scanned_segment use_cache (cache_store st) all_symbols all_segments <$>
       filter (fun segment => is_scanned use_cache (cache_store st) segment = true) segments) /\
    (forall k, tally (seg_sizes st') k = tally (seg_sizes st) k + bucket_bytes k segments) /\
    (forall k, tally (seg_split st') k
               = tally (seg_split st) k + bucket_scans use_cache (cache_store st) k segments) /\
    (forall k, tally (seg_cached st') k = tally (seg_cached st) k) /\
    (forall k, is_Some (seg_sizes st' !! k) <->
               is_Some (seg_sizes st !! k) \/ exists segment, segment ∈ segments /\
                                                             bucket segment = k).
Proof.
  revert st. induction segments as [|segment segments IH]; intros st Hdom.
  - exists st. simpl. split_and!; try done; try (by rewrite app_nil_r);
      try (intros k; lia).
    intros k. split; [by left|]. intros [?|(s & Hs & _)]; [done|]. by apply elem_of_nil in Hs.
  - destruct (scan_segment_step use_cache all_symbols all_segments segment st Hdom)
      as (st1 & Hrun & Hdom1 & Hstore1 & Htyp1 & _ & Htrace1 & Hproc1
          & Hsizes1 & Hsplit1 & Hcached1 & Hkeys1).
    destruct (IH st1 Hdom1)
      as (st' & Hrun' & Hdom' & Hstore' & Htyp' & Htrace' & Hproc'
          & Hsizes' & Hsplit' & Hcached' & Hkeys').
    rewrite Hstore1 in *.
    exists st'. split_and!; try done.
    + cbn [for_each]. unfold bind at 1. rewrite Hrun.
      unfold bind at 1. rewrite Hrun'. reflexivity.
    + rewrite Htyp', Htyp1, last_cons. by destruct (last segments).
    + rewrite Htrace', Htrace1, filter_cons.
      destruct (is_scanned use_cache (cache_store st) segment).
      * rewrite decide_True by done. rewrite fmap_cons. by rewrite <- app_assoc.
      * rewrite decide_False by done. by rewrite app_nil_r.
    + rewrite Hproc', Hproc1, filter_cons.
      destruct (is_scanned use_cache (cache_store st) segment) eqn:Hsc.
      * rewrite decide_True by done. rewrite fmap_cons. by rewrite <- app_assoc.
      * rewrite decide_False by done. by rewrite app_nil_r.
    + intros k. rewrite Hsizes', Hsizes1. simpl. lia.
    + intros k. rewrite Hsplit', Hsplit1. simpl. lia.
    + intros k. by rewrite Hcached', Hcached1.
    + intros k. rewrite Hkeys', Hkeys1. split.
      * intros [[? | ->] | (s & Hs & Hb)]; [by left| |].
        -- right. exists segment. split; [apply list_elem_of_here|done].
        -- right. exists s. split; [by apply list_elem_of_further|done].
      * intros [?|(s & [->|Hs]%elem_of_cons & Hb)]; [by left; left|by left; right|].
        right. by exists s.
Qed.

Lemma split_segment_nocache segment st :
  split_segment false segment st =
  (Ok tt,
   (if should_split segment then add_event (Split (unique_id segment)) else fun st => st) st).
Proof. unfold split_segment; unfold_run. by destruct (should_split segment). Qed.

(** The split of one segment, once [typ] is bound to a counted type. *)
Lemma split_segment_step use_cache segment st t :
  typ st = Some t -> is_Some (seg_cached st !! t) ->
  exists st',
    split_segment use_cache segment st = (Ok tt, st') /\
    typ st' = Some t /\ is_Some (seg_cached st' !! t) /\
    seg_sizes st' = seg_sizes st /\ seg_split st' = seg_split st /\
    processed_segments st' = processed_segments st /\
    cache_store st' =
      (if use_cache && negb (cache_hit segment (cache_store st))
       then <[unique_id segment := cache segment]> (cache_store st)
       else cache_store st) /\
    trace st' = trace st ++
      (if negb (use_cache && cache_hit segment (cache_store st)) && should_split segment
       then [Split (unique_id segment)] else []) /\
    (forall k, tally (seg_cached st') k = tally (seg_cached st) k +
       if decide (k = t)
       then (if use_cache && cache_hit segment (cache_store st) then 1 else 0) else 0).
Proof.
  intros Htyp [n Hn]. destruct use_cache.
  - destruct (cache_hit segment (cache_store st)) eqn:Hhit.
    + rewrite (split_segment_hit _ _ t n Hhit Htyp Hn). eexists. split; [reflexivity|].
      simpl. split_and!; try done.
      * by rewrite lookup_insert_eq.
      * by rewrite app_nil_r.
      * intros k. rewrite tally_insert. case_decide; [subst|lia].
        unfold tally. rewrite Hn. simpl. lia.
    + rewrite (split_segment_miss _ _ Hhit). eexists. split; [reflexivity|].
      destruct (should_split segment); simpl; split_and!; try done;
        try (by rewrite ?Hn); try (by rewrite app_nil_r);
        intros k; case_decide; lia.
  - rewrite split_segment_nocache. eexists. split; [reflexivity|].
    destruct (should_split segment); simpl; split_and!; try done;
      try (by rewrite ?Hn); try (by rewrite app_nil_r);
      intros k; case_decide; lia.
Qed.

Lemma cache_hit_lookup segment (store store' : gmap string yaml) :
  store' !! unique_id segment = store !! unique_id segment ->
  cache_hit segment store' = cache_hit segment store.
Proof. intros Heq. unfold cache_hit, cache_get. by rewrite Heq. Qed.

(** The split loop, once [typ] is bound to a counted type (it is, after a
    scan loop over the same segments). *)
Lemma split_pass_run use_cache segments st :
  (segments <> [] -> exists t, typ st = Some t /\ is_Some (seg_cached st !! t)) ->
  exists out st',
    for_each (split_segment use_cache) segments st = (Ok out, st') /\
    typ st' = typ st /\ seg_sizes st' = seg_sizes st /\ seg_split st' = seg_split st /\
    processed_segments st' = processed_segments st /\
    (use_cache = false ->
     cache_store st' = cache_store st /\ trace st' = trace st ++ split_events segments /\
     seg_cached st' = seg_cached st) /\
    ((forall segment, segment ∈ segments ->
        use_cache && cache_hit segment (cache_store st) = true) ->
     cache_store st' = cache_store st /\ trace st' = trace st /\
     forall k, tally (seg_cached st') k = tally (seg_cached st) k +
       if decide (typ st = Some k) then Z.of_nat (length segments) else 0) /\
    (use_cache = true -> NoDup (unique_id <$> segments) ->
     (forall segment, segment ∈ segments -> py_eq (cache segment) (cache segment) = true) ->
     (forall segment, segment ∈ segments -> cache_hit segment (cache_store st') = true) /\
     (forall k, k ∉ unique_id <$> segments -> cache_store st' !! k = cache_store st !! k)).
Proof.
  revert st. induction segments as [|segment segments IH]; intros st Htyp.
  - exists [], st. simpl. split_and!; try done.
    + intros _. split_and!; try done. by rewrite app_nil_r.
    + intros _. split_and!; try done. intros k. case_decide; lia.
    + intros _ _ _. split; [by intros s Hs%elem_of_nil | done].
  - destruct Htyp as (t & Ht & Hkey); [done|].
    destruct (split_segment_step use_cache segment st t Ht Hkey)
      as (st1 & Hrun & Ht1 & Hkey1 & Hsizes1 & Hsplit1 & Hproc1 & Hstore1 & Htrace1 & Htally1).
    destruct (IH st1) as (out & st' & Hrun' & Ht' & Hsizes' & Hsplit' & Hproc'
                          & Hno' & Hhits' & Hclo'); [by exists t|].
    exists (tt :: out), st'. split_and!.
    + cbn [for_each]. unfold bind at 1. rewrite Hrun.
      unfold bind at 1. rewrite Hrun'. reflexivity.
    + congruence.
    + congruence.
    + congruence.
    + congruence.
    + intros ->. destruct (Hno' eq_refl) as (Hs & Htr & Hc). simpl in *.
      split_and!.
      * congruence.
      * rewrite Htr, Htrace1. by rewrite <- app_assoc.
      * rewrite Hc. rewrite split_segment_nocache in Hrun. injection Hrun as <-.
        by destruct (should_split segment).
    + intros Hall.
      assert (Hhit : use_cache && cache_hit segment (cache_store st) = true)
        by (apply Hall, list_elem_of_here).
      apply andb_prop in Hhit as [Huc Hhit]. subst use_cache.
      rewrite Hhit in Hstore1, Htrace1. simpl in Hstore1, Htrace1.
      assert (Htally1' : forall k, tally (seg_cached st1) k
                = tally (seg_cached st) k + if decide (k = t) then 1 else 0).
      { intros k. rewrite Htally1, Hhit. done. }
      destruct Hhits' as (Hs & Htr & Hc).
      { intros s Hs. rewrite Hstore1. by apply Hall, list_elem_of_further. }
      split_and!.
      * congruence.
      * rewrite Htr, Htrace1. by rewrite app_nil_r.
      * intros k. rewrite Hc, Htally1', Ht1, Ht. cbn [length].
        repeat case_decide; simplify_eq; lia.
    + intros -> Hnd Hrefl. rewrite fmap_cons in Hnd. apply NoDup_cons in Hnd as [Hnotin Hnd].
      destruct (Hclo' eq_refl Hnd) as [Hrest Hother].
      { intros s Hs. by apply Hrefl, list_elem_of_further. }
      simpl in Hstore1.
      assert (Hhead : cache_hit segment (cache_store st1) = true).
      { rewrite Hstore1. destruct (cache_hit segment (cache_store st)) eqn:Hhit; [done|].
        simpl. unfold cache_hit, cache_get. rewrite lookup_insert_eq. simpl.
        apply Hrefl, list_elem_of_here. }
      split.
      * intros s [-> | Hs]%elem_of_cons; [|by apply Hrest].
        rewrite (cache_hit_lookup _ (cache_store st1)); [done|]. by apply Hother.
      * intros k [Hne Hk]%not_elem_of_cons. rewrite (Hother k Hk), Hstore1.
        destruct (cache_hit segment (cache_store st)); simpl; [done|].
        by rewrite lookup_insert_ne.
Qed.

Lemma scanned_segment_identity use_cache store all_symbols all_segments segment :
  same_identity segment (scanned_segment use_cache store all_symbols all_segments segment).
Proof.
  unfold scanned_segment, same_identity.
  destruct (is_scanned use_cache store segment); [|done].
  by destruct (needs_symbols segment).
Qed.

Lemma scanned_segments_identity use_cache store all_symbols all_segments
    (segments : list Segment) :
  Forall2 same_identity segments
    (scanned_segment use_cache store all_symbols all_segments <$> segments).
Proof.
  induction segments as [|segment segments IH]; [constructor|].
  rewrite fmap_cons. constructor; [apply scanned_segment_identity | done].
Qed.



Section main_more.
Context {SM : SegmentModule}.


(** The two passes from the locals of [main], whatever the cache holds. *)
Lemma scan_and_split_run use_cache all_symbols all_segments store :
  exists st1 units st',
    for_each (scan_segment use_cache all_symbols all_segments) all_segments
      (locals_at_initialize store)
    = (Ok (scanned_segment use_cache store all_symbols all_segments <$> all_segments), st1) /\
    for_each (split_segment use_cache)
      (scanned_segment use_cache store all_symbols all_segments <$> all_segments) st1
    = (Ok units, st') /\
    scan_and_split use_cache all_symbols all_segments (locals_at_initialize store)
    = (Ok (scanned_segment use_cache store all_symbols all_segments <$> all_segments), st').
Proof.
  destruct (scan_pass_run use_cache all_symbols all_segments all_segments
              (locals_at_initialize store))
    as (st1 & Hscan & Hdom1 & Hstore1 & Htyp1 & _ & _ & _ & _ & _ & Hkeys1).
  { intros k. simpl. rewrite !lookup_empty. split; split; by intros [? ?]. }
  simpl in Hscan.
  destruct (split_pass_run use_cache
              (scanned_segment use_cache store all_symbols all_segments <$> all_segments) st1)
    as (units & st' & Hsplit & _).
  { intros Hne. destruct (last all_segments) as [final|] eqn:Hlast.
    - exists (bucket final). split; [by rewrite Htyp1|].
      apply Hdom1, Hkeys1. right. exists final. split; [|done].
      apply last_Some in Hlast as [l' ->]. apply elem_of_app. right. apply list_elem_of_here.
    - apply last_None in Hlast. subst. done. }
  exists st1, units, st'. split_and!; [done|done|].
  unfold scan_and_split. unfold bind at 1. rewrite Hscan.
  unfold bind at 1. rewrite Hsplit. reflexivity.
Qed.

End main_more.

(** After the scan loop [typ] is bound to a counted type, if the loop ran
    at all. *)
Lemma split_pass_ready (f : Segment -> Segment) (segments : list Segment) st st1 :
  counters_dom st1 ->
  typ st1 = from_option (fun segment => Some (bucket segment)) (typ st) (last segments) ->
  (forall k, is_Some (seg_sizes st1 !! k) <->
             is_Some (seg_sizes st !! k) \/ exists segment, segment ∈ segments /\
                                                           bucket segment = k) ->
  f <$> segments <> [] -> exists t, typ st1 = Some t /\ is_Some (seg_cached st1 !! t).
Proof.
  intros Hdom1 Htyp1 Hkeys1 Hne. destruct (last segments) as [final|] eqn:Hlast.
  - exists (bucket final). split; [done|].
    apply Hdom1, Hkeys1. right. exists final. split; [|done].
    apply last_Some in Hlast as [l' ->]. apply elem_of_app. right. apply list_elem_of_here.
  - apply last_None in Hlast. subst. done.
Qed.

Lemma scan_and_split_compose use_cache all_symbols all_segments st out st1 units st' :
  for_each (scan_segment use_cache all_symbols all_segments) all_segments st = (Ok out, st1) ->
  for_each (split_segment use_cache) out st1 = (Ok units, st') ->
  scan_and_split use_cache all_symbols all_segments st = (Ok out, st').
Proof.
  intros Hscan Hsplit. unfold scan_and_split. unfold bind at 1. rewrite Hscan.
  unfold bind at 1. rewrite Hsplit. reflexivity.
Qed.

Lemma locals_at_initialize_dom store : counters_dom (locals_at_initialize store).
Proof. intros k. simpl. rewrite !lookup_empty. split; split; by intros [? ?]. Qed.

(** X9.  After the two passes the size counter of a type holds the
    bytes of the segments of that bucket (a segment without size counts
    for 0), the split counter holds the number of them that were scanned,
    the counters have an entry for exactly the buckets of the segments,
    and [processed_segments] lists the scanned segments in order. *)
Theorem scan_pass_bookkeeping use_cache all_symbols (all_segments : list Segment) store :
  exists out st',
    scan_and_split use_cache all_symbols all_segments (locals_at_initialize store)
      = (Ok out, st') /\
    (forall k, tally (seg_sizes st') k = bucket_bytes k all_segments) /\
    (forall k, tally (seg_split st') k = bucket_scans use_cache store k all_segments) /\
    (forall k, is_Some (seg_sizes st' !! k) <->
               exists segment, segment ∈ all_segments /\ bucket segment = k) /\
    processed_segments st'
    = scanned_segment use_cache store all_symbols all_segments <$>
        filter (fun segment => is_scanned use_cache store segment = true) all_segments.
Proof.
  destruct (scan_pass_run use_cache all_symbols all_segments all_segments
              (locals_at_initialize store) (locals_at_initialize_dom store))
    as (st1 & Hscan & Hdom1 & Hstore1 & Htyp1 & _ & Hproc1 & Hsizes1 & Hsplit1 & _ & Hkeys1).
  destruct (split_pass_run use_cache
              (scanned_segment use_cache store all_symbols all_segments <$> all_segments) st1)
    as (units & st' & Hsplit & _ & Hsizes' & Hsplit' & Hproc' & _).
  { by apply (split_pass_ready _ all_segments (locals_at_initialize store)). }
  simpl in Hscan, Hproc1, Hsizes1, Hsplit1, Hkeys1.
  eexists _, st'. split; [by eapply scan_and_split_compose|].
  rewrite Hsizes', Hsplit', Hproc'. split_and!.
  - intros k. rewrite Hsizes1. unfold tally. rewrite lookup_empty. simpl. lia.
  - intros k. rewrite Hsplit1. unfold tally. rewrite lookup_empty. simpl. lia.
  - intros k. rewrite Hkeys1, lookup_empty. split; [|by right].
    intros [[? ?]|?]; done.
  - done.
Qed.


Section main_cache.
Context {SM : SegmentModule}.


End main_cache.

Section main_two_runs.
Context {SM : SegmentModule}.



End main_two_runs.




(** ** [do_statistics] *)

Lemma first_occurrences_elem (k : string) (l : list string) :
  k ∈ first_occurrences l <-> k ∈ l.
Proof.
  induction l as [|k' l IH]; [done|].
  cbn [first_occurrences]. rewrite !elem_of_cons, list_elem_of_filter, IH.
  destruct (decide (k = k')); naive_solver.
Qed.

Lemma first_occurrences_NoDup (l : list string) : NoDup (first_occurrences l).
Proof.
  induction l as [|k l IH]; [constructor|].
  cbn [first_occurrences]. constructor.
  - rewrite list_elem_of_filter. naive_solver.
  - by apply NoDup_filter.
Qed.

(** The sum of a list of integers. *)
Lemma rest_size_from (entries : list (string * Z)) (start : Z) :
  fold_left (fun rest entry => if decide (entry.1 <> "unk") then rest + entry.2 else rest)
            entries start
  = start + rest_size entries.
Proof.
  unfold rest_size. revert start. induction entries as [|[k n] entries IH]; intros start.
  - simpl. lia.
  - cbn [fold_left]. rewrite IH, (IH (if decide _ then _ else _)).
    case_decide; lia.
Qed.

Lemma rest_size_cons k n (entries : list (string * Z)) :
  rest_size ((k, n) :: entries)
  = (if decide (k <> "unk") then n else 0) + rest_size entries.
Proof.
  unfold rest_size at 1. cbn [fold_left]. rewrite rest_size_from. simpl.
  case_decide; lia.
Qed.

Lemma rest_size_add (keys : list string) (f g : string -> Z) :
  rest_size ((fun k => (k, f k + g k)) <$> keys)
  = rest_size ((fun k => (k, f k)) <$> keys) + rest_size ((fun k => (k, g k)) <$> keys).
Proof.
  induction keys as [|k keys IH]; [done|].
  rewrite !fmap_cons, !rest_size_cons, IH. case_decide; lia.
Qed.

Lemma rest_size_indicator (keys : list string) (t : string) (v : Z) :
  NoDup keys ->
  rest_size ((fun k => (k, if decide (t = k) then v else 0)) <$> keys)
  = if decide (t ∈ keys /\ t <> "unk") then v else 0.
Proof.
  induction 1 as [|k keys Hk Hnd IH]; [by rewrite decide_False by (by intros [?%elem_of_nil ?])|].
  rewrite fmap_cons, rest_size_cons, IH.
  repeat case_decide; try lia; exfalso; set_solver.
Qed.

Lemma bucket_bytes_absent (k : string) (segments : list Segment) :
  (forall segment, segment ∈ segments -> bucket segment <> k) ->
  bucket_bytes k segments = 0.
Proof.
  induction segments as [|s segments IH]; intros Hne; [done|].
  cbn [bucket_bytes]. rewrite decide_False by (apply Hne, list_elem_of_here).
  rewrite IH; [done|]. intros s' Hs'. by apply Hne, list_elem_of_further.
Qed.

Lemma sizes_get_fmap (k : string) (keys : list string) (f : string -> Z) :
  sizes_get k ((fun k => (k, f k)) <$> keys) = if decide (k ∈ keys) then Some (f k) else None.
Proof.
  induction keys as [|k' keys IH]; [done|].
  rewrite fmap_cons. cbn [sizes_get]. rewrite IH.
  repeat case_decide; try done; try (exfalso; set_solver); by subst.
Qed.

Lemma unk_size_statistics (all_segments : list Segment) :
  unk_size (statistics_sizes all_segments) = bucket_bytes "unk" all_segments.
Proof.
  unfold unk_size, statistics_sizes. rewrite sizes_get_fmap. case_decide as Hin; [done|].
  simpl. symmetry. apply bucket_bytes_absent. intros s Hs Hb. apply Hin.
  apply first_occurrences_elem. rewrite <- Hb. by apply list_elem_of_fmap_2.
Qed.

Lemma rest_size_buckets (keys : list string) (segments : list Segment) :
  NoDup keys ->
  (forall segment, segment ∈ segments -> bucket segment ∈ keys) ->
  rest_size ((fun k => (k, bucket_bytes k segments)) <$> keys) + bucket_bytes "unk" segments
  = total_bytes segments.
Proof.
  intros Hnd. induction segments as [|s segments IH]; intros Hkeys.
  - simpl. clear. induction keys as [|k keys IH]; [done|].
    rewrite fmap_cons, rest_size_cons. case_decide; lia.
  - cbn [bucket_bytes total_bytes foldr].
    rewrite (rest_size_add keys
               (fun k => if decide (bucket s = k) then default 0 (size s) else 0)
               (fun k => bucket_bytes k segments)).
    rewrite rest_size_indicator by done.
    fold (total_bytes segments).
    rewrite <- IH by (intros s' Hs'; by apply Hkeys, list_elem_of_further).
    pose proof (Hkeys s (list_elem_of_here _ _)).
    repeat case_decide; try lia; exfalso; naive_solver.
Qed.

Lemma statistics_sizes_total (all_segments : list Segment) :
  rest_size (statistics_sizes all_segments) + unk_size (statistics_sizes all_segments)
  = total_bytes all_segments.
Proof.
  rewrite unk_size_statistics. unfold statistics_sizes.
  apply rest_size_buckets; [apply first_occurrences_NoDup|].
  intros s Hs. apply first_occurrences_elem. by apply list_elem_of_fmap_2.
Qed.

Section do_statistics_more.
Context {C : Console}.

Lemma divide_not_zero (a b : Z) :
  b <> 0 ->
  divide a b = match true_div a b with
               | Some ratio => inr ratio
               | None => inl OverflowError
               end.
Proof. intros Hb. unfold divide. by rewrite decide_False. Qed.

(** The loop over the types, when no counter lacks a key. *)
Lemma type_lines_keys total_size (seg_split seg_cached : gmap string Z)
    (entries : list (string * Z)) :
  total_size <> 0 ->
  (forall entry, entry ∈ entries -> entry.1 <> "unk" ->
     is_Some (seg_split !! entry.1) /\ is_Some (seg_cached !! entry.1)) ->
  let outcome := type_lines total_size seg_split seg_cached entries in
  (outcome.2 = None \/ outcome.2 = Some OverflowError) /\
  (Forall (fun n => is_Some (true_div n total_size))
          (filter (fun entry => entry.1 <> "unk") entries).*2 ->
   outcome.2 = None /\
   length outcome.1 = length (filter (fun entry => entry.1 <> "unk") entries)).
Proof.
  intros Htotal. induction entries as [|[k n] entries IH]; intros Hkeys.
  - simpl. split; [by left|done].
  - cbn [type_lines]. rewrite filter_cons. cbn [fst].
    destruct IH as [IH1 IH2]; [intros e He; by apply Hkeys, list_elem_of_further|].
    case_decide as Hk; [|done].
    destruct (Hkeys (k, n) (list_elem_of_here _ _) Hk) as [[n1 Hn1] [n2 Hn2]].
    cbn [fst] in Hn1, Hn2. rewrite divide_not_zero by done.
    destruct (true_div n total_size) as [ratio|] eqn:Hdiv.
    + rewrite Hn1, Hn2. cbn [fst snd]. split; [done|].
      rewrite fmap_cons. intros [_ Hrest]%Forall_cons.
      destruct (IH2 Hrest) as [? ?]. split; [done|]. simpl. congruence.
    + cbn [fst snd]. split; [by right|].
      rewrite fmap_cons. intros [[? Hsome] _]%Forall_cons. cbn [snd] in Hsome. congruence.
Qed.

(** A target of no bytes ends the statistics before a line is written. *)
Lemma do_statistics_empty (seg_sizes : list (string * Z)) (seg_split seg_cached : gmap string Z) :
  do_statistics seg_sizes [] seg_split seg_cached = ([], Some ZeroDivisionError).
Proof. reflexivity. Qed.

Lemma do_statistics_run (seg_sizes : list (string * Z)) (rom_bytes : list Byte.byte)
    (seg_split seg_cached : gmap string Z) :
  rom_bytes <> [] ->
  (forall entry, entry ∈ seg_sizes -> entry.1 <> "unk" ->
     is_Some (seg_split !! entry.1) /\ is_Some (seg_cached !! entry.1)) ->
  let report := do_statistics seg_sizes rom_bytes seg_split seg_cached in
  (report.2 = None \/ report.2 = Some OverflowError) /\
  (representable (Z.of_nat (length rom_bytes)) seg_sizes ->
   report.2 = None /\
   length report.1 = (2 + length (filter (fun entry => entry.1 <> "unk") seg_sizes))%nat /\
   exists known_ratio middle final,
     true_div (rest_size seg_sizes) (Z.of_nat (length rom_bytes)) = Some known_ratio /\
     report.1 = ("Split " +:+ fmt_size (rest_size seg_sizes) +:+ " ("
                 +:+ fmt_percent known_ratio +:+ ") in defined segments")
                :: middle ++ [final]).
Proof.
  intros Hrom Hkeys.
  assert (Htotal : Z.of_nat (length rom_bytes) <> 0) by (destruct rom_bytes; [done|simpl; lia]).
  destruct (type_lines_keys _ seg_split seg_cached seg_sizes Htotal Hkeys) as [Hmid1 Hmid2].
  unfold do_statistics. rewrite !divide_not_zero by done. split.
  - destruct (true_div (rest_size seg_sizes) _); [|by right].
    destruct (true_div (unk_size seg_sizes) _); [|by right].
    destruct Hmid1 as [->| ->]; [by left|by right].
  - unfold representable, figures. intros [[r1 Hr1] [[r2 Hr2] Hrest]%Forall_cons]%Forall_cons.
    rewrite Hr1, Hr2. destruct (Hmid2 Hrest) as [Hnone Hlen]. rewrite Hnone. cbn [fst snd].
    split_and!; [done| |].
    + rewrite length_cons, length_app, Hlen. simpl. lia.
    + by eexists _, _, _.
Qed.
End do_statistics_more.

(** ** [main] with its statistics *)

Lemma scanned_segment_bucket use_cache store all_symbols all_segments segment :
  bucket (scanned_segment use_cache store all_symbols all_segments segment) = bucket segment.
Proof.
  unfold scanned_segment. destruct (is_scanned use_cache store segment); [|done].
  by destruct (needs_symbols segment).
Qed.

(** The split of one segment leaves the keys of the counter of cache
    hits as they are, and saves nothing. *)
Lemma split_segment_dom use_cache segment st t :
  typ st = Some t -> is_Some (seg_cached st !! t) ->
  let st' := (split_segment use_cache segment st).2 in
  (forall k, is_Some (seg_cached st' !! k) <-> is_Some (seg_cached st !! k)) /\
  (forall store, Dump store ∈ trace st' -> Dump store ∈ trace st).
Proof.
  intros Htyp [n Hn]. destruct use_cache.
  - destruct (cache_hit segment (cache_store st)) eqn:Hhit.
    + rewrite (split_segment_hit _ _ t n Hhit Htyp Hn). simpl. split; [|done].
      intros k. destruct (decide (t = k)) as [<-|Hne].
      * rewrite lookup_insert_eq, Hn. split; by eexists.
      * by rewrite lookup_insert_ne.
    + rewrite (split_segment_miss _ _ Hhit).
      destruct (should_split segment); simpl; split; try done.
      intros store [?|Hin%list_elem_of_singleton]%elem_of_app; done.
  - rewrite split_segment_nocache.
    destruct (should_split segment); simpl; split; try done.
    intros store [?|Hin%list_elem_of_singleton]%elem_of_app; done.
Qed.

Lemma split_pass_dom use_cache segments st out st' :
  (segments <> [] -> exists t, typ st = Some t /\ is_Some (seg_cached st !! t)) ->
  for_each (split_segment use_cache) segments st = (Ok out, st') ->
  (forall k, is_Some (seg_cached st' !! k) <-> is_Some (seg_cached st !! k)) /\
  (forall store, Dump store ∈ trace st' -> Dump store ∈ trace st).
Proof.
  revert st out. induction segments as [|segment segments IH]; intros st out Hpre Hrun.
  - simpl in Hrun. unfold pure in Hrun. by simplify_eq.
  - destruct Hpre as (t & Ht & Hkey); [done|].
    destruct (split_segment_step use_cache segment st t Ht Hkey)
      as (st1 & Hstep & Ht1 & Hkey1 & _).
    pose proof (split_segment_dom use_cache segment st t Ht Hkey) as Hd.
    rewrite Hstep in Hd. simpl in Hd. destruct Hd as [Hd1 Hd2].
    cbn [for_each] in Hrun. unfold bind at 1 in Hrun. rewrite Hstep in Hrun.
    unfold bind at 1 in Hrun.
    destruct (for_each (split_segment use_cache) segments st1) as [[out'|e] st2] eqn:Hrest;
      [|done].
    unfold pure in Hrun. simplify_eq.
    destruct (IH st1 out') as [I1 I2]; [by exists t|done|].
    split.
    + intros k. by rewrite I1.
    + intros store Hin. by apply Hd2, I2.
Qed.

Lemma omap_lookup_fmap (sizes : gmap string Z) (f : string -> Z) (keys : list string) :
  (forall k, k ∈ keys -> sizes !! k = Some (f k)) ->
  omap (fun k => (fun n => (k, n)) <$> sizes !! k) keys = (fun k => (k, f k)) <$> keys.
Proof.
  induction keys as [|k keys IH]; intros Hkeys; [done|].
  cbn [omap list_omap]. rewrite (Hkeys k) by apply list_elem_of_here.
  rewrite fmap_cons. simpl. f_equal. apply IH. intros k' Hk'.
  by apply Hkeys, list_elem_of_further.
Qed.

(** The locals after the two passes, as the statistics read them. *)
Lemma scan_and_split_counters use_cache all_symbols (all_segments : list Segment) store :
  exists st',
    scan_and_split use_cache all_symbols all_segments (locals_at_initialize store)
    = (Ok (scanned_segment use_cache store all_symbols all_segments <$> all_segments), st') /\
    counters_dom st' /\
    sizes_in_order (scanned_segment use_cache store all_symbols all_segments <$> all_segments)
                   (seg_sizes st')
    = statistics_sizes all_segments /\
    (forall stored, Dump stored ∉ trace st') /\
    processed_segments st'
    = scanned_segment use_cache store all_symbols all_segments <$>
        filter (fun segment => is_scanned use_cache store segment = true) all_segments.
Proof.
  destruct (scan_pass_run use_cache all_symbols all_segments all_segments
              (locals_at_initialize store) (locals_at_initialize_dom store))
    as (st1 & Hscan & Hdom1 & Hstore1 & Htyp1 & Htrace1 & Hproc1 & Hsizes1 & _ & _ & Hkeys1).
  simpl in Hscan, Htrace1, Hproc1, Hsizes1, Hkeys1.
  set (out := scanned_segment use_cache store all_symbols all_segments <$> all_segments) in *.
  assert (Hready : out <> [] -> exists t, typ st1 = Some t /\ is_Some (seg_cached st1 !! t)).
  { by apply (split_pass_ready _ all_segments (locals_at_initialize store)). }
  destruct (split_pass_run use_cache out st1 Hready)
    as (units & st' & Hsplit & _ & Hsizes' & Hsplit' & Hproc' & _).
  destruct (split_pass_dom use_cache out st1 units st' Hready Hsplit) as [Hcached' Hdump'].
  exists st'. split_and!.
  - by eapply scan_and_split_compose.
  - intros k. rewrite Hsizes', Hsplit', Hcached'. apply Hdom1.
  - unfold sizes_in_order, statistics_sizes.
    assert (Hbuckets : bucket <$> out = bucket <$> all_segments).
    { unfold out. rewrite <- list_fmap_compose. apply list_fmap_ext.
      intros i s _. apply scanned_segment_bucket. }
    rewrite Hbuckets. apply omap_lookup_fmap. intros k Hk.
    apply first_occurrences_elem, list_elem_of_fmap in Hk as (s & -> & Hs).
    rewrite Hsizes'.
    assert (Hsome : is_Some (seg_sizes st1 !! bucket s)).
    { apply Hkeys1. right. by exists s. }
    destruct Hsome as [n Hn]. rewrite Hn. f_equal.
    specialize (Hsizes1 (bucket s)). unfold tally in Hsizes1.
    rewrite Hn, lookup_empty in Hsizes1. simpl in Hsizes1. lia.
  - intros stored Hin. apply Hdump' in Hin. rewrite Htrace1 in Hin.
    apply elem_of_cons in Hin as [Hin|Hin]; [done|].
    by apply list_elem_of_fmap in Hin as (s & ? & _).
  - by rewrite Hproc'.
Qed.

Lemma statistics_sizes_keys (all_segments : list Segment) st :
  counters_dom st ->
  (forall k, k ∈ first_occurrences (bucket <$> all_segments) -> is_Some (seg_sizes st !! k)) ->
  forall entry, entry ∈ statistics_sizes all_segments -> entry.1 <> "unk" ->
    is_Some (seg_split st !! entry.1) /\ is_Some (seg_cached st !! entry.1).
Proof.
  intros Hdom Hkeys entry (k & -> & Hk)%list_elem_of_fmap _. simpl.
  destruct (Hdom k) as [H1 H2]. split; [apply H1|apply H2]; by apply Hkeys.
Qed.

Section main_statistics.
Context {SM : SegmentModule} {C : Console}.

Lemma main_until_statistics_passes config pickled all_symbols use_cache
    store config_segments all_segments :
  load_cache use_cache pickled = Ok store ->
  config_segments_of config = Ok config_segments ->
  initialize_segments config_segments = Ok all_segments ->
  main_until_statistics config pickled all_symbols use_cache initial_locals
  = scan_and_split use_cache all_symbols all_segments
      (locals_at_initialize (invalidate_cache use_cache config store)).
Proof.
  intros Hload Hcs Hinit. unfold main_until_statistics; unfold_run.
  cbn -[scan_and_split invalidate_cache load_cache].
  by rewrite Hload, Hcs, Hinit.
Qed.

(** The run in terms of the two passes and of the statistics on what
    they leave. *)
Lemma main_with_statistics_run config rom_bytes pickled all_symbols use_cache
    store config_segments all_segments :
  load_cache use_cache pickled = Ok store ->
  config_segments_of config = Ok config_segments ->
  initialize_segments config_segments = Ok all_segments ->
  exists out st',
    scan_and_split use_cache all_symbols all_segments
      (locals_at_initialize (invalidate_cache use_cache config store)) = (Ok out, st') /\
    out = scanned_segment use_cache (invalidate_cache use_cache config store)
            all_symbols all_segments <$> all_segments /\
    (forall stored, Dump stored ∉ trace st') /\
    processed_segments st'
    = scanned_segment use_cache (invalidate_cache use_cache config store)
        all_symbols all_segments <$>
        filter (fun segment =>
                  is_scanned use_cache (invalidate_cache use_cache config store) segment = true)
               all_segments /\
    (forall entry, entry ∈ statistics_sizes all_segments -> entry.1 <> "unk" ->
       is_Some (seg_split st' !! entry.1) /\ is_Some (seg_cached st' !! entry.1)) /\
    let report :=
      do_statistics (statistics_sizes all_segments) rom_bytes (seg_split st') (seg_cached st') in
    main_with_statistics config rom_bytes pickled all_symbols use_cache initial_locals
    = match report.2 with
      | Some e => ((report.1, inl e), st')
      | None =>
          ((report.1, inr out),
           if bool_decide (cache_store st' <> ∅) && use_cache
           then add_event (Dump (cache_store st')) st' else st')
      end.
Proof.
  intros Hload Hcs Hinit.
  destruct (scan_and_split_counters use_cache all_symbols all_segments
              (invalidate_cache use_cache config store))
    as (st' & Hrun & Hdom & Hsizes & Hdump & Hproc).
  eexists _, st'. split_and!; [exact Hrun|done|done|done| |].
  - apply statistics_sizes_keys; [done|]. intros k Hk.
    assert (Hin : (k, bucket_bytes k all_segments) ∈ statistics_sizes all_segments).
    { unfold statistics_sizes. by apply (list_elem_of_fmap_2 (fun k => (k, bucket_bytes k all_segments))). }
    rewrite <- Hsizes in Hin. unfold sizes_in_order in Hin.
    apply list_elem_of_omap in Hin as (k' & _ & Hlook).
    destruct (seg_sizes st' !! k') as [n|] eqn:Hn; [|done].
    simpl in Hlook. by simplify_eq.
  - unfold main_with_statistics.
    rewrite (main_until_statistics_passes _ _ _ _ store config_segments all_segments)
      by done.
    rewrite Hrun, Hsizes. reflexivity.
Qed.

End main_statistics.

Section run_with_statistics.
Context {SM : SegmentModule} {C : Console}.

(** X10.  Once the cache is loaded and the segments are initialised, a run
    on a target of at least one byte cannot end in a [KeyError] or a
    [NameError]: every counter has the key it is incremented or read at,
    in the two loops and in the statistics, and [typ] is bound whenever
    the split loop reads it.  The run either ends on a ratio beyond the
    floats, or returns one segment for each initialised segment, with the
    same ids. *)
Theorem run_without_key_error config rom_bytes pickled all_symbols use_cache
    store config_segments all_segments :
  load_cache use_cache pickled = Ok store ->
  config_segments_of config = Ok config_segments ->
  initialize_segments config_segments = Ok all_segments ->
  rom_bytes <> [] ->
  exists lines outcome st',
    main_with_statistics config rom_bytes pickled all_symbols use_cache initial_locals
      = ((lines, outcome), st') /\
    (outcome = inl OverflowError \/
     exists out, outcome = inr out /\ unique_id <$> out = unique_id <$> all_segments).
Proof.
  intros Hload Hcs Hinit Hrom.
  destruct (main_with_statistics_run config rom_bytes pickled all_symbols use_cache
              store config_segments all_segments Hload Hcs Hinit)
    as (out & st' & _ & -> & _ & _ & Hkeys & Hmain).
  cbv zeta in Hmain.
  destruct (do_statistics_run (statistics_sizes all_segments) rom_bytes
              (seg_split st') (seg_cached st') Hrom Hkeys) as [[Hend|Hend] _];
    rewrite Hend in Hmain; eexists _, _, _; (split; [exact Hmain|]).
  - right. eexists. split; [done|].
    by apply (same_identity_lists _ _ ∅), scanned_segments_identity.
  - by left.
Qed.




(** X14.  On a target of no bytes the run ends in the statistics, on a
    division by zero, before a line of them is written: the segments
    have been scanned all the same, and the cache is never saved. *)
Theorem empty_target_never_saves config pickled all_symbols use_cache
    store config_segments all_segments :
  load_cache use_cache pickled = Ok store ->
  config_segments_of config = Ok config_segments ->
  initialize_segments config_segments = Ok all_segments ->
  exists st',
    main_with_statistics config [] pickled all_symbols use_cache initial_locals
      = (([], inl ZeroDivisionError), st') /\
    (forall stored, Dump stored ∉ trace st') /\
    processed_segments st'
    = scanned_segment use_cache (invalidate_cache use_cache config store)
        all_symbols all_segments <$>
        filter (fun segment =>
                  is_scanned use_cache (invalidate_cache use_cache config store) segment = true)
               all_segments.
Proof.
  intros Hload Hcs Hinit.
  destruct (main_with_statistics_run config [] pickled all_symbols use_cache
              store config_segments all_segments Hload Hcs Hinit)
    as (out & st' & _ & _ & Hdump & Hproc & _ & Hmain).
  cbv zeta in Hmain. rewrite do_statistics_empty in Hmain.
  by exists st'.
Qed.
End run_with_statistics.

(** X15.  On a target of at least one byte, with counters that have an
    entry for every type of [seg_sizes] other than the unknown one, the
    statistics cannot end in a [KeyError] nor in a division by zero; if
    every ratio is within the floats they end well and write two lines
    and one for each such type, the first of which reports the total of
    the sizes of these types. *)
Theorem do_statistics_report {C : Console} (seg_sizes : list (string * Z))
    (rom_bytes : list Byte.byte) (seg_split seg_cached : gmap string Z) :
  rom_bytes <> [] ->
  (forall entry, entry ∈ seg_sizes -> entry.1 <> "unk" ->
     is_Some (seg_split !! entry.1) /\ is_Some (seg_cached !! entry.1)) ->
  let report := do_statistics seg_sizes rom_bytes seg_split seg_cached in
  (report.2 = None \/ report.2 = Some OverflowError) /\
  (representable (Z.of_nat (length rom_bytes)) seg_sizes ->
   report.2 = None /\
   length report.1 = (2 + length (filter (fun entry => entry.1 <> "unk") seg_sizes))%nat /\
   exists known_ratio middle final,
     true_div (rest_size seg_sizes) (Z.of_nat (length rom_bytes)) = Some known_ratio /\
     report.1 = ("Split " +:+ fmt_size (rest_size seg_sizes) +:+ " ("
                 +:+ fmt_percent known_ratio +:+ ") in defined segments")
                :: middle ++ [final]).
Proof. apply do_statistics_run. Qed.

(** X16.  The sizes the statistics of a run read have one entry for each
    bucket of the segments, in the order of the first segment of each,
    and their two totals, of the unknown type and of the others, add up
    to the sizes of all the segments, a segment without size counting
    for 0. *)
Theorem statistics_account_for_every_segment use_cache all_symbols
    (all_segments : list Segment) store :
  exists out st',
    scan_and_split use_cache all_symbols all_segments (locals_at_initialize store)
      = (Ok out, st') /\
    (sizes_in_order out (seg_sizes st')).*1 = first_occurrences (bucket <$> all_segments) /\
    rest_size (sizes_in_order out (seg_sizes st'))
    + unk_size (sizes_in_order out (seg_sizes st'))
    = total_bytes all_segments.
Proof.
  destruct (scan_and_split_counters use_cache all_symbols all_segments store)
    as (st' & Hrun & _ & Hsizes & _).
  eexists _, st'. split; [exact Hrun|]. rewrite Hsizes. split.
  - unfold statistics_sizes. rewrite <- list_fmap_compose. apply list_fmap_id.
  - apply statistics_sizes_total.
Qed.

Lemma run_without_key_error_witness :
  exists lines outcome st',
    @main_with_statistics ref_segment_module toy_console stats_config [Byte.x00]
      (Raise FileNotFoundError) [] true initial_locals = ((lines, outcome), st') /\
    (outcome = inl OverflowError \/
     exists out, outcome = inr out /\ unique_id <$> out = ["code_boot"; "data_tables"]).
Proof.
  edestruct (@run_without_key_error ref_segment_module toy_console stats_config [Byte.x00]
               (Raise FileNotFoundError) [] true ∅)
    as (lines & outcome & st' & Hrun & Hend).
  - reflexivity.
  - reflexivity.
  - vm_compute. reflexivity.
  - discriminate.
  - exists lines, outcome, st'. split; [exact Hrun|exact Hend].
Defined.




Lemma empty_target_never_saves_witness :
  exists st',
    @main_with_statistics ref_segment_module toy_console stats_config []
      (Ok stats_stored) [] true initial_locals = (([], inl ZeroDivisionError), st') /\
    (forall stored, Dump stored ∉ trace st') /\
    unique_id <$> processed_segments st' = ["data_tables"].
Proof.
  edestruct (@empty_target_never_saves ref_segment_module toy_console stats_config
               (Ok stats_stored) [] true stats_stored)
    as (st' & Hrun & Hdump & Hproc).
  - reflexivity.
  - reflexivity.
  - vm_compute. reflexivity.
  - exists st'. split; [exact Hrun|]. split; [exact Hdump|]. rewrite Hproc.
    vm_compute. reflexivity.
Defined.

Lemma do_statistics_report_witness :
  let report :=
    @do_statistics toy_console [("code", 4096); ("unk", 512); ("data", 4096)]
      [Byte.x00; Byte.x00] {[ "code" := 1; "unk" := 0; "data" := 0 ]}
      {[ "code" := 0; "unk" := 0; "data" := 1 ]} in
  report.2 = None /\ length report.1 = 4%nat.
Proof.
  edestruct (@do_statistics_report toy_console [("code", 4096); ("unk", 512); ("data", 4096)]
               [Byte.x00; Byte.x00] {[ "code" := 1; "unk" := 0; "data" := 0 ]}
               {[ "code" := 0; "unk" := 0; "data" := 1 ]}) as [_ Hok].
  - discriminate.
  - intros entry Hin Hne. split; apply (bool_decide_unpack _);
      repeat (apply elem_of_cons in Hin as [->|Hin]; [vm_compute; done|]);
      by apply elem_of_nil in Hin.
  - destruct Hok as (Hnone & Hlen & _).
    + apply Forall_forall. intros n _. by eexists.
    + split; [exact Hnone|exact Hlen].
Defined.

(** ** [visualize] *)

Lemma string_app_length (s t : string) :
  String.length (s +:+ t) = (String.length s + String.length t)%nat.
Proof. induction s as [|a s IH]; [done|]. simpl. by rewrite IH. Qed.

Lemma sub_label_fresh (s : string) : s +:+ "_sub" <> s.
Proof.
  intros Heq. apply (f_equal String.length) in Heq.
  rewrite string_app_length in Heq. simpl in Heq. lia.
Qed.

(** The rows of the subsegments of a group: their parent is the group,
    and none of them bears the name of the group. *)
Lemma visualize_subsegments_rows (segment : Segment) (subs : list Segment) (t : Treemap) :
  exists ls vs ts,
    labels (fold_left (visualize_subsegment segment) subs t) = labels t ++ ls /\
    parents (fold_left (visualize_subsegment segment) subs t)
    = parents t ++ replicate (length ls) (name segment) /\
    values (fold_left (visualize_subsegment segment) subs t) = values t ++ vs /\
    types (fold_left (visualize_subsegment segment) subs t) = types t ++ ts /\
    length ls = length (filter (fun sub => size_truthy (size sub) = true) subs) /\
    length vs = length ls /\ length ts = length ls /\
    Forall (fun label => label <> name segment) ls.
Proof.
  revert t. induction subs as [|sub subs IH]; intros t.
  - exists [], [], []. simpl. by rewrite !app_nil_r.
  - cbn [fold_left]. rewrite filter_cons.
    destruct (IH (visualize_subsegment segment t sub))
      as (ls & vs & ts & Hl & Hp & Hv & Hty & Hlen & Hlv & Hlt & Hfresh).
    rewrite Hl, Hp, Hv, Hty. unfold visualize_subsegment.
    destruct (size_truthy (size sub)) eqn:Hsize.
    + destruct (decide (true = true)); [|done].
      eexists (_ :: ls), (_ :: vs), (_ :: ts).
      simpl. rewrite <- !app_assoc. simpl.
      split_and!; try done; try lia.
      constructor; [|done]. case_decide as Hname; [|done].
      rewrite Hname. apply sub_label_fresh.
    + destruct (decide (false = true)); [done|]. by exists ls, vs, ts.
Qed.

Section visualize_more.
Context {SM : SegmentModule}.
Variable subsegments : Segment -> option (list Segment).

(** What the rows of one segment keep. *)
Lemma visualize_segment_rows (segment : Segment) (t : Treemap) n :
  aligned t n -> no_self_parent t ->
  Forall (fun parent => parent = "" \/ parent ∈ labels t) (parents t) ->
  "rom" ∈ labels t ->
  aligned (visualize_segment subsegments t segment) (n + rows_of subsegments segment) /\
  no_self_parent (visualize_segment subsegments t segment) /\
  Forall (fun parent => parent = "" \/ parent ∈ labels (visualize_segment subsegments t segment))
         (parents (visualize_segment subsegments t segment)) /\
  "rom" ∈ labels (visualize_segment subsegments t segment).
Proof.
  intros Ht Hself Hclosed Hroot.
  destruct (visualize_subsegments_rows segment (default [] (subsegments segment)) t)
    as (ls & vs & ts & Hl & Hp & Hv & Hty & Hlen & Hlv & Hlt & Hfresh).
  assert (Hsubs : (match subsegments segment with
                   | Some subs => fold_left (visualize_subsegment segment) subs t
                   | None => t
                   end)
                  = fold_left (visualize_subsegment segment)
                              (default [] (subsegments segment)) t).
  { by destruct (subsegments segment). }
  unfold visualize_segment. rewrite Hsubs.
  destruct Ht as (Hn1 & Hn2 & Hn3 & Hn4).
  unfold aligned, no_self_parent, rows_of, add_row. cbn [labels parents values types].
  rewrite Hl, Hp, Hv, Hty. split_and!.
  - rewrite !length_app. simpl. lia.
  - rewrite !length_app, length_replicate. simpl. lia.
  - rewrite !length_app. simpl. lia.
  - rewrite !length_app. simpl. lia.
  - rewrite <- !app_assoc.
    rewrite zip_with_app by congruence.
    rewrite zip_with_app by (by rewrite length_replicate).
    apply Forall_app. split; [done|]. apply Forall_app. split.
    + clear -Hfresh. induction Hfresh as [|l ls Hl _ IH]; [constructor|].
      simpl. constructor; [|done]. simpl. by intros ?.
    + simpl. constructor; [|constructor]. simpl. by intros ->.
  - rewrite <- !app_assoc. apply Forall_app. split; [|apply Forall_app; split].
    + eapply Forall_impl; [exact Hclosed|]. simpl. intros p [->|Hin]; [by left|].
      right. apply elem_of_app. by left.
    + apply Forall_forall. intros p [-> _]%elem_of_replicate. right.
      rewrite !elem_of_app. right. right. by apply list_elem_of_singleton.
    + constructor; [|constructor]. right. apply elem_of_app. by left.
  - rewrite <- !app_assoc. apply elem_of_app. by left.
Qed.

Lemma visualize_fold_rows (segments : list Segment) (t : Treemap) n :
  aligned t n -> no_self_parent t ->
  Forall (fun parent => parent = "" \/ parent ∈ labels t) (parents t) ->
  "rom" ∈ labels t ->
  aligned (fold_left (visualize_segment subsegments) segments t)
          (n + sum_list (rows_of subsegments <$> segments)) /\
  no_self_parent (fold_left (visualize_segment subsegments) segments t) /\
  Forall (fun parent =>
            parent = "" \/
            parent ∈ labels (fold_left (visualize_segment subsegments) segments t))
         (parents (fold_left (visualize_segment subsegments) segments t)).
Proof.
  revert t n. induction segments as [|segment segments IH]; intros t n Ht Hself Hclosed Hroot.
  - simpl. by rewrite Nat.add_0_r.
  - cbn [fold_left]. rewrite fmap_cons. cbn [sum_list sum_list_with].
    destruct (visualize_segment_rows segment t n Ht Hself Hclosed Hroot)
      as (Ht' & Hself' & Hclosed' & Hroot').
    rewrite Nat.add_assoc. by apply IH.
Qed.

(** X17.  When the configuration loads and its segments initialise,
    [visualize] builds four lists that stay aligned: each holds the root
    row, then, for each segment in order, one row for each of its
    subsegments with a size other than 0 and one row for the segment. *)
Theorem visualize_rows_aligned (documents : list dict) config config_segments
    (all_segments : list Segment) :
  load_config [] documents = Ok config ->
  config_segments_of config = Ok config_segments ->
  initialize_segments config_segments = Ok all_segments ->
  exists t,
    visualize subsegments documents = Ok t /\
    aligned t (1 + sum_list (rows_of subsegments <$> all_segments)).
Proof.
  intros Hload Hcs Hinit. exists (visualize_rows subsegments all_segments). split.
  - unfold visualize. rewrite Hload. simpl. rewrite Hcs. simpl. by rewrite Hinit.
  - unfold visualize_rows. apply visualize_fold_rows.
    + done.
    + unfold no_self_parent. simpl. constructor; [done|constructor].
    + simpl. constructor; [by left|constructor].
    + apply list_elem_of_here.
Qed.

(** X18.  In the lists [visualize] hands to the treemap every parent,
    apart from the empty parent of the root, is the label of a row, and
    no row is its own parent unless it is named "rom": a subsegment
    named as its group is labelled with the suffix "_sub". *)
Theorem visualize_rows_parents (all_segments : list Segment) :
  no_self_parent (visualize_rows subsegments all_segments) /\
  Forall (fun parent => parent = "" \/ parent ∈ labels (visualize_rows subsegments all_segments))
         (parents (visualize_rows subsegments all_segments)).
Proof.
  unfold visualize_rows.
  destruct (visualize_fold_rows all_segments
              {| labels := ["rom"]; parents := [""]; values := [Some 0]; types := ["rom"] |} 1)
    as (_ & Hself & Hclosed); try done.
  - unfold no_self_parent. simpl. constructor; [done|constructor].
  - simpl. constructor; [by left|constructor].
  - apply list_elem_of_here.
Qed.
End visualize_more.

Lemma visualize_rows_aligned_witness :
  exists t,
    @visualize ref_segment_module (fun _ => None) [stats_config] = Ok t /\
    aligned t 3.
Proof.
  edestruct (@visualize_rows_aligned ref_segment_module (fun _ => None) [stats_config])
    as (t & Hrun & Haligned).
  - reflexivity.
  - reflexivity.
  - vm_compute. reflexivity.
  - exists t. split; [exact Hrun|exact Haligned].
Defined.
